(** * Encrypted file mapping: page-state table and address translation

    A shallow embedding of [realm::util::EncryptedFileMapping]
    (realm/util/encrypted_file_mapping.hpp).  The inline members of the
    header ([get_offset_of_address], [get_local_index_of_address],
    [contains_page], the [PageState] helpers and the constant
    [c_min_encrypted_file_size]) are transcribed from the C++ text.  The
    members that the header only declares are modelled from the
    specification and are marked as such. *)

From Stdlib Require Import ZArith Lia Bool.
From stdpp Require Import base strings list gmap.

Local Open Scope Z_scope.

(** ** Machine integers

    [size_t], [uintptr_t] and [unsigned long long] are 64-bit unsigned
    integers on the supported targets: a value is a [Z] in [0, 2^64) and
    every arithmetic operation wraps modulo [2^64]. *)
Module SizeT.

Definition bits : Z := 64.
Definition modulus : Z := 2 ^ bits.

Definition in_range (z : Z) : Prop := 0 <= z < modulus.

Definition wrap (z : Z) : Z := z mod modulus.

Definition add (a b : Z) : Z := wrap (a + b).
Definition sub (a b : Z) : Z := wrap (a - b).
Definition shl (a s : Z) : Z := wrap (Z.shiftl a s).
Definition shr (a s : Z) : Z := Z.shiftr a s.
Definition and (a b : Z) : Z := Z.land a b.

(** [a - b] on unsigned operands wraps below zero exactly when [a < b]. *)
Definition sub_wraps (a b : Z) : bool := a <? b.

End SizeT.

(** ** Outcomes of a member function

    A call returns normally, terminates the process (a failed assertion),
    or throws [DecryptionFailed], the one exception type the header
    declares. *)
Inductive exn : Type :=
  | DecryptionFailed.

Inductive outcome (A : Type) : Type :=
  | Ret (a : A)
  | Fatal
  | Raise (e : exn).

Arguments Ret {A} a.
Arguments Fatal {A}.
Arguments Raise {A} e.

(** Sequencing, with stdpp's [x ← c; k] notation: a fatal error or an
    exception in [c] skips [k]. *)
#[global] Instance outcome_bind : MBind outcome := fun A B k c =>
  match c with
  | Ret a => k a
  | Fatal => Fatal
  | Raise e => Raise e
  end.

(** Modelled from the spec: the assertion macros [REALM_ASSERT_3] and
    [REALM_ASSERT_EX] (realm/util/assert.hpp) are not part of the header.
    The specification classes a failed check as a fatal programming error
    that terminates the call, so an assertion either lets the computation
    continue or ends it with [Fatal]. *)
Definition REALM_ASSERT {A : Type} (cond : bool) (k : outcome A) : outcome A :=
  if cond then k else Fatal.

(** ** Page states

    [enum PageState] is a bit mask; the helpers are the four inline
    "little helpers" of the class. *)
Module PageState.

Definition Clean : Z := 0.
Definition Touched : Z := 1.
Definition UpToDate : Z := 2.
Definition StaleIV : Z := 4.
Definition Writable : Z := 8.
Definition Dirty : Z := 16.

(** [ps = PageState(ps & ~p)] *)
Definition clear (ps p : Z) : Z := Z.land ps (Z.lnot p).
(** [(ps & p) == 0] *)
Definition is_not (ps p : Z) : bool := Z.land ps p =? 0.
(** [(ps & p) != 0]; the C++ name [is] is reserved in Rocq. *)
Definition is_ (ps p : Z) : bool := negb (Z.land ps p =? 0).
(** [ps = PageState(ps | p)] *)
Definition set (ps p : Z) : Z := Z.lor ps p.

End PageState.

(** ** The mapping object *)

Inductive AccessMode : Type :=
  | access_ReadOnly
  | access_ReadWrite.

Record EncryptedFileMapping : Type := mkMapping {
  m_page_shift : Z;
  m_blocks_per_page : Z;
  m_addr : Z;
  m_first_page : Z;
  m_num_decrypted : Z;
  m_page_state : list Z;
  m_chunk_dont_scan : list bool;
  m_access : AccessMode
}.

Definition page_to_chunk_shift : Z := 10.
Definition page_to_chunk_factor : Z := SizeT.shl 1 page_to_chunk_shift.

Definition c_min_encrypted_file_size : Z := 8192.

(** [m_page_state.size()] *)
Definition page_count (m : EncryptedFileMapping) : Z :=
  Z.of_nat (length (m_page_state m)).

Definition get_end_index (m : EncryptedFileMapping) : Z :=
  SizeT.add (m_first_page m) (page_count m).

Definition get_start_index (m : EncryptedFileMapping) : Z := m_first_page m.

(** The scalar members hold values of their C++ types, and the shift is a
    legal shift amount for a 64-bit operand. *)
Record wf_mapping (m : EncryptedFileMapping) : Prop := {
  wf_shift : 0 <= m_page_shift m < SizeT.bits;
  wf_addr : SizeT.in_range (m_addr m);
  wf_first : SizeT.in_range (m_first_page m)
}.

(** ** Address translation *)

Definition get_offset_of_address (m : EncryptedFileMapping) (addr : Z) : outcome Z :=
  REALM_ASSERT (m_addr m <=? addr)
    (Ret (SizeT.and (SizeT.sub addr (m_addr m))
                    (SizeT.sub (SizeT.shl 1 (m_page_shift m)) 1))).

Definition get_local_index_of_address (m : EncryptedFileMapping) (addr offset : Z)
  : outcome Z :=
  REALM_ASSERT (m_addr m <=? addr)
    (let local_ndx :=
       SizeT.shr (SizeT.add (SizeT.sub addr (m_addr m)) offset) (m_page_shift m) in
     REALM_ASSERT (local_ndx <? page_count m) (Ret local_ndx)).

(** The index the translator computes, before its range check. *)
Definition raw_local_index (m : EncryptedFileMapping) (addr offset : Z) : Z :=
  SizeT.shr (SizeT.add (SizeT.sub addr (m_addr m)) offset) (m_page_shift m).

(** *** [contains_page], with the subtractions it evaluates

    [&&] evaluates its right operand only when the left one is true.  The
    traced version returns, next to the value, the operand pairs of every
    unsigned subtraction that was actually evaluated. *)
Definition contains_page_traced (m : EncryptedFileMapping) (page_in_file : Z)
  : bool * list (Z * Z) :=
  if m_first_page m <=? page_in_file
  then (SizeT.sub page_in_file (m_first_page m) <? page_count m,
        [(page_in_file, m_first_page m)])
  else (false, []).

Definition contains_page (m : EncryptedFileMapping) (page_in_file : Z) : bool :=
  fst (contains_page_traced m page_in_file).

(** A mapping with three 4 KiB pages based at address 0x10000, whose
    first page is page 5 of the file. *)
Definition sample_mapping : EncryptedFileMapping :=
  {| m_page_shift := 12; m_blocks_per_page := 1; m_addr := 65536;
     m_first_page := 5; m_num_decrypted := 0;
     m_page_state := [PageState.Clean; PageState.UpToDate; PageState.Clean];
     m_chunk_dont_scan := [false]; m_access := access_ReadWrite |}.

(** ** The remaining inline members *)

Definition collect_decryption_count (m : EncryptedFileMapping) : Z :=
  m_num_decrypted m.

(** *** Debug printing (compiled under [REALM_DEBUG]) *)

(** The lambda [state_name] of [print_debug]: ["Clean"] for the state
    without flags, else the names of the flags that are set, in the order
    of the enum, between braces and with nothing between them. *)
Definition state_name (s : Z) : string :=
  if s =? PageState.Clean then "Clean"
  else
    let state := "{" in
    let state :=
      if Z.land s PageState.Touched =? 0 then state else state +:+ "Touched" in
    let state :=
      if Z.land s PageState.UpToDate =? 0 then state else state +:+ "UpToDate" in
    let state :=
      if Z.land s PageState.StaleIV =? 0 then state else state +:+ "StaleIV" in
    let state :=
      if Z.land s PageState.Writable =? 0 then state else state +:+ "Writable" in
    let state :=
      if Z.land s PageState.Dirty =? 0 then state else state +:+ "Dirty" in
    state +:+ "}".

(** One turn of the loop of [print_debug] over [m_page_state]: a
    separator unless the text is still empty, then the name. *)
Definition append_state_name (page_states : string) (s : Z) : string :=
  let page_states :=
    if String.eqb page_states "" then page_states else page_states +:+ ", " in
  page_states +:+ state_name s.

(** The local [page_states] of [print_debug] after its loop. *)
Definition debug_page_states (l : list Z) : string :=
  fold_left append_state_name l "".

(** [print_debug].  [util::format] is not in the header: it is a
    parameter, given the format text and the four arguments. *)
Definition print_debug (format : string -> Z -> Z -> Z -> string -> string)
    (m : EncryptedFileMapping) : string :=
  format "%1 pages from %2 to %3: %4" (page_count m) (m_first_page m)
         (SizeT.add (page_count m) (m_first_page m))
         (debug_page_states (m_page_state m)).

(** ** Collaborators *)

(** Modelled from the spec: the cryptor ([aes_cryptor.hpp]) and
    [SharedFileInfo] are only named in the header.  As in the
    specification's list of external interfaces they enter as an
    interface: the types of a page of plaintext, a page of ciphertext and
    an IV, the cryptor's three operations, and the two accesses to the
    shared file image. *)
Class Collaborators : Type := {
  plain : Type;
  cipher : Type;
  iv : Type;
  iv_eq_dec :: EqDecision iv;
  SharedFileInfo : Type;
  (** [decrypt(page_ciphertext, iv) -> plaintext | IntegrityError] *)
  decrypt : cipher -> iv -> option plain;
  (** [encrypt(plaintext) -> (ciphertext, iv)] *)
  encrypt : plain -> cipher * iv;
  (** [read_current_iv(page_index)]: the IV currently on disk, if any *)
  read_current_iv : SharedFileInfo -> Z -> option iv;
  (** ciphertext and IV of a page; [None] where the file region is empty *)
  fetch_page : SharedFileInfo -> Z -> option (cipher * iv);
  (** write ciphertext and IV of a page into the shared cache *)
  store_page : SharedFileInfo -> Z -> cipher * iv -> SharedFileInfo;
  (** what a page of an empty file region reads as *)
  blank_page : plain
}.

(** The function-pointer type [Header_to_size], from an address to a
    [size_t].  The callback reads the record header in decrypted memory:
    it is given the content of the page holding [addr] and the offset of
    [addr] in that page.  [None] is the null pointer. *)
Definition Header_to_size `{Collaborators} : Type := option (plain -> Z -> Z).

Section Model.
Context `{Collaborators}.

(** Modelled from the spec: the mapping together with what its members
    act on, namely the decrypted memory behind [m_addr] (one entry per
    local page; an absent entry is released memory), the IV recorded for
    each page of plaintext, and the shared file. *)
Record world : Type := mkWorld {
  mapping : EncryptedFileMapping;
  memory : gmap nat plain;
  recorded_iv : gmap nat iv;
  file : SharedFileInfo
}.

Definition with_page_state (l : list Z) (m : EncryptedFileMapping)
  : EncryptedFileMapping :=
  mkMapping (m_page_shift m) (m_blocks_per_page m) (m_addr m) (m_first_page m)
            (m_num_decrypted m) l (m_chunk_dont_scan m) (m_access m).

Definition with_chunk_dont_scan (l : list bool) (m : EncryptedFileMapping)
  : EncryptedFileMapping :=
  mkMapping (m_page_shift m) (m_blocks_per_page m) (m_addr m) (m_first_page m)
            (m_num_decrypted m) (m_page_state m) l (m_access m).

Definition with_num_decrypted (n : Z) (m : EncryptedFileMapping)
  : EncryptedFileMapping :=
  mkMapping (m_page_shift m) (m_blocks_per_page m) (m_addr m) (m_first_page m)
            n (m_page_state m) (m_chunk_dont_scan m) (m_access m).

Definition with_mapping (m : EncryptedFileMapping) (w : world) : world :=
  mkWorld m (memory w) (recorded_iv w) (file w).

Definition page_states (w : world) : list Z := m_page_state (mapping w).

(** Bytes in a page, [1 << m_page_shift]. *)
Definition page_size (m : EncryptedFileMapping) : Z := SizeT.shl 1 (m_page_shift m).

(** Global index of local page [i]. *)
Definition page_in_file (m : EncryptedFileMapping) (i : nat) : Z :=
  SizeT.add (m_first_page m) (Z.of_nat i).

(** Content of the memory of local page [i]. *)
Definition page_content (w : world) (i : nat) : plain :=
  default blank_page (memory w !! i).

(** *** The chunk skip-bitmap: one flag per 1024 pages *)
Definition chunk_of (i : nat) : nat :=
  Z.to_nat (SizeT.shr (Z.of_nat i) page_to_chunk_shift).

Definition dont_scan (m : EncryptedFileMapping) (i : nat) : bool :=
  default false (m_chunk_dont_scan m !! chunk_of i).

(** Modelled from the spec: the skip flag of a chunk is cleared whenever
    a page in it changes to a state a later scan has to look at.  This is
    [m_page_state[i] = ps] together with that clearing. *)
Definition set_state_and_rescan (i : nat) (ps : Z) (m : EncryptedFileMapping)
  : EncryptedFileMapping :=
  with_chunk_dont_scan (<[chunk_of i := false]> (m_chunk_dont_scan m))
    (with_page_state (<[i := ps]> (m_page_state m)) m).

(** The pages of chunk [c]. *)
Definition chunk_pages (l : list Z) (c : nat) : list Z :=
  take (Z.to_nat page_to_chunk_factor) (drop (c * Z.to_nat page_to_chunk_factor) l).

(** Modelled from the spec: after a scan, a chunk all of whose pages
    satisfy [settled] gets its skip flag set. *)
Definition mark_settled_chunks (settled : Z -> bool) (m : EncryptedFileMapping)
  : EncryptedFileMapping :=
  with_chunk_dont_scan
    (imap (fun c b => b || forallb settled (chunk_pages (m_page_state m) c))
          (m_chunk_dont_scan m)) m.

(** [for (idx = first; idx < first + count; ++idx) body(idx)] *)
Fixpoint for_loop {S : Type} (idx count : nat) (body : nat -> S -> outcome S) (s : S)
  : outcome S :=
  match count with
  | O => Ret s
  | Datatypes.S c => s' ← body idx s; for_loop (Datatypes.S idx) c body s'
  end.

(** *** flush *)

(** Modelled from the spec: one page of the flush scan.  A page in a
    chunk whose skip flag is set is skipped; a [Dirty] page has its
    current plaintext encrypted, which yields a fresh IV, ciphertext and
    IV are written into the shared cache, and [Dirty] and [Writable] are
    cleared, the other flags left. *)
Definition flush_page (i : nat) (w : world) : outcome world :=
  let m := mapping w in
  match m_page_state m !! i with
  | None => Ret w
  | Some ps =>
      if dont_scan m i then Ret w
      else if PageState.is_not ps PageState.Dirty then Ret w
      else
        let block := encrypt (page_content w i) in
        Ret (mkWorld
               (with_page_state
                  (<[i := PageState.clear ps (Z.lor PageState.Dirty PageState.Writable)]>
                     (m_page_state m)) m)
               (memory w)
               (<[i := snd block]> (recorded_iv w))
               (store_page (file w) (page_in_file m i) block))
  end.

(** Modelled from the spec: the body of [EncryptedFileMapping::flush]
    (encrypted_file_mapping.cpp) is not in the header.  Every page is
    scanned; afterwards the skip flag is set on every chunk whose pages
    are all clean of [Dirty] and [Writable]. *)
Definition flush (w : world) : outcome world :=
  w' ← for_loop 0 (length (page_states w)) flush_page w;
  Ret (with_mapping
         (mark_settled_chunks
            (fun ps => PageState.is_not ps (Z.lor PageState.Dirty PageState.Writable))
            (mapping w')) w').

(** *** write_barrier *)

(** Modelled from the spec: one page of a write barrier.  The page must
    be [Writable], else the call is fatal; it gets [Dirty] set. *)
Definition mark_dirty (i : nat) (w : world) : outcome world :=
  let m := mapping w in
  match m_page_state m !! i with
  | None => Fatal
  | Some ps =>
      REALM_ASSERT (PageState.is_ ps PageState.Writable)
        (Ret (with_mapping
                (set_state_and_rescan i (PageState.set ps PageState.Dirty) m) w))
  end.

(** Modelled from the spec: the body of
    [EncryptedFileMapping::write_barrier] is not in the header.  The pages
    overlapping [addr, addr + size) run from the page of the first byte to
    the page of the last byte, both found with
    [get_local_index_of_address].  Nothing is encrypted: memory, recorded
    IVs and the shared file are not touched.  An empty range overlaps no
    page. *)
Definition write_barrier (w : world) (addr size : Z) : outcome world :=
  if size =? 0 then Ret w
  else
    first ← get_local_index_of_address (mapping w) addr 0;
    last ← get_local_index_of_address (mapping w) addr (size - 1);
    for_loop (Z.to_nat first) (Z.to_nat (last + 1 - first)) mark_dirty w.

(** *** mark_pages_for_IV_check *)

(** Modelled from the spec: a page that is [Touched] or [UpToDate] gets
    [StaleIV] set. *)
Definition mark_page_for_IV_check (ps : Z) : Z :=
  if PageState.is_ ps (Z.lor PageState.Touched PageState.UpToDate)
  then PageState.set ps PageState.StaleIV
  else ps.

(** Modelled from the spec: the body of
    [EncryptedFileMapping::mark_pages_for_IV_check] is not in the header.
    Every page of the window is marked; nothing is decrypted. *)
Definition mark_pages_for_IV_check (w : world) : outcome world :=
  Ret (with_mapping
         (with_page_state (mark_page_for_IV_check <$> page_states w) (mapping w)) w).

(** *** read_barrier

    The numbered steps are those of the specification. *)

(** Modelled from the spec: step 2.  A [StaleIV] page compares the IV on disk with the one recorded
    for the plaintext in memory; a difference clears [UpToDate]; either
    way [StaleIV] is cleared. *)
Definition check_stale_iv (w : world) (i : nat) (ps : Z) : Z :=
  if PageState.is_ ps PageState.StaleIV then
    let ps' :=
      if decide (read_current_iv (file w) (page_in_file (mapping w) i)
                 = recorded_iv w !! i)
      then ps
      else PageState.clear ps PageState.UpToDate in
    PageState.clear ps' PageState.StaleIV
  else ps.

(** Modelled from the spec: what decrypting page [p] of the file yields,
    the plaintext, or [None] when the integrity tag of a non-empty region
    does not verify. *)
Definition fresh_content (f : SharedFileInfo) (p : Z) : option plain :=
  match fetch_page f p with
  | None => Some blank_page
  | Some (c, v) => decrypt c v
  end.

(** Modelled from the spec: step 3, the body of [refresh_page], which the
    header only declares.  The page is decrypted into memory and its IV
    recorded; a failed integrity check on a non-empty region throws;
    [m_num_decrypted] counts the pages actually decrypted. *)
Definition refresh_page (w : world) (i : nat) : outcome world :=
  let m := mapping w in
  match fetch_page (file w) (page_in_file m i) with
  | None =>
      Ret (mkWorld m (<[i := blank_page]> (memory w)) (delete i (recorded_iv w))
                   (file w))
  | Some (c, v) =>
      match decrypt c v with
      | None => Raise DecryptionFailed
      | Some text =>
          Ret (mkWorld (with_num_decrypted (SizeT.add (m_num_decrypted m) 1) m)
                       (<[i := text]> (memory w)) (<[i := v]> (recorded_iv w))
                       (file w))
      end
  end.

(** Modelled from the spec: steps 1 to 4 for one page.  A page outside
    the table is fatal; a request to modify requires the page to be
    [UpToDate] and sets [Writable] and [Touched]. *)
Definition barrier_page (to_modify : bool) (i : nat) (w : world) : outcome world :=
  match page_states w !! i with
  | None => Fatal
  | Some ps =>
      let ps2 := check_stale_iv w i ps in
      w3 ← (if PageState.is_not ps2 PageState.UpToDate then refresh_page w i else Ret w);
      let ps3 :=
        if PageState.is_not ps2 PageState.UpToDate
        then PageState.set ps2 PageState.UpToDate else ps2 in
      ps4 ← (if to_modify
             then REALM_ASSERT (PageState.is_ ps3 PageState.UpToDate)
                    (Ret (PageState.set ps3 (Z.lor PageState.Writable PageState.Touched)))
             else Ret ps3);
      Ret (with_mapping (set_state_and_rescan i ps4 (mapping w3)) w3)
  end.

Definition is_read_write (a : AccessMode) : bool :=
  match a with
  | access_ReadWrite => true
  | access_ReadOnly => false
  end.

(** Modelled from the spec: the head of the barrier.  The page of the
    first byte is made current first; with a callback (step 5) the size
    then becomes the larger of the requested one and the one the header
    announces.  The result is the local page range [first .. last] of the
    barrier and the state after the first page. *)
Definition barrier_head (w : world) (addr size : Z) (header_to_size : Header_to_size)
    (to_modify : bool) : outcome (nat * nat * world) :=
  first ← get_local_index_of_address (mapping w) addr 0;
  w1 ← barrier_page to_modify (Z.to_nat first) w;
  size' ← match header_to_size with
          | None => Ret size
          | Some f =>
              off ← get_offset_of_address (mapping w1) addr;
              Ret (Z.max size (f (page_content w1 (Z.to_nat first)) off))
          end;
  last ← get_local_index_of_address (mapping w1) addr
           (if size' =? 0 then 0 else size' - 1);
  Ret (Z.to_nat first, Z.to_nat last, w1).

(** Modelled from the spec: the body of
    [EncryptedFileMapping::read_barrier] is not in the header.  The head,
    then the remaining pages up to the page of the last byte.  A request
    to modify is valid only on a read-write mapping.  Without a callback
    an empty range overlaps no page. *)
Definition read_barrier (w : world) (addr size : Z) (header_to_size : Header_to_size)
    (to_modify : bool) : outcome world :=
  REALM_ASSERT (negb to_modify || is_read_write (m_access (mapping w)))
    (if (size =? 0) && negb (bool_decide (is_Some header_to_size)) then Ret w
     else
       range ← barrier_head w addr size header_to_size to_modify;
       let '(first, last, w1) := range in
       for_loop (Datatypes.S first) (last - first) (barrier_page to_modify) w1).


(** *** reclaim_untouched *)

(** Modelled from the spec: the pages a pass may evict are those that are
    [Clean] or [UpToDate], neither [Dirty] nor [Writable], and not
    [Touched]. *)
Definition reclaimable (ps : Z) : bool :=
  ((ps =? PageState.Clean) || PageState.is_ ps PageState.UpToDate)
  && PageState.is_not ps PageState.Dirty
  && PageState.is_not ps PageState.Writable
  && PageState.is_not ps PageState.Touched.

(** Modelled from the spec: the body of [reclaim_page], which the header
    only declares.  The decrypted memory of the page is released and its
    state reset to [Clean]. *)
Definition reclaim_page (i : nat) (w : world) : world :=
  mkWorld (with_page_state (<[i := PageState.Clean]> (page_states w)) (mapping w))
          (delete i (memory w)) (delete i (recorded_iv w)) (file w).

(** Modelled from the spec: one page of a reclaim pass.  Outside the
    chunks whose skip flag is set, a page that may be evicted is, and one
    page size is added to the savings; every other page is left as it
    is. *)
Definition reclaim_step (i : nat) (st : world * Z) : outcome (world * Z) :=
  let '(w, savings) := st in
  match page_states w !! i with
  | None => Ret st
  | Some ps =>
      if dont_scan (mapping w) i then Ret st
      else if reclaimable ps
           then Ret (reclaim_page i w, SizeT.add savings (page_size (mapping w)))
           else Ret st
  end.

(** Modelled from the spec: the body of
    [EncryptedFileMapping::reclaim_untouched] is not in the header.  The
    pass runs from the cursor to the end of the table; afterwards the
    chunks whose pages are all [Clean] get their skip flag set, and the
    cursor stands at the end of the scan.  The two reference parameters
    are returned next to the new state. *)
Definition reclaim_untouched (w : world) (progress_ptr accumulated_savings : Z)
  : outcome (world * Z * Z) :=
  let n := length (page_states w) in
  let start := Z.to_nat progress_ptr in
  st ← for_loop start (n - start) reclaim_step (w, accumulated_savings);
  Ret (with_mapping
         (mark_settled_chunks (fun ps => ps =? PageState.Clean) (mapping (fst st)))
         (fst st),
       Z.max progress_ptr (Z.of_nat n), snd st).

(** *** extend_to *)

(** Modelled from the spec: the number of pages that cover [size] bytes. *)
Definition pages_covering (m : EncryptedFileMapping) (size : Z) : Z :=
  (size + 2 ^ m_page_shift m - 1) / 2 ^ m_page_shift m.

(** Modelled from the spec: the body of [EncryptedFileMapping::extend_to]
    is not in the header.  The page table grows to the number of pages
    that cover [new_size] bytes; the pages it had keep their state, the
    added ones start [Clean]; the skip-bitmap grows with it.  The file
    offset does not enter the page table. *)
Definition extend_to (w : world) (offset new_size : Z) : outcome world :=
  let m := mapping w in
  let num_pages := Z.to_nat (pages_covering m new_size) in
  let num_chunks :=
    Z.to_nat ((Z.of_nat num_pages + page_to_chunk_factor - 1) / page_to_chunk_factor) in
  Ret (with_mapping
         (with_chunk_dont_scan
            (m_chunk_dont_scan m
               ++ replicate (num_chunks - length (m_chunk_dont_scan m)) false)
            (with_page_state
               (m_page_state m
                  ++ replicate (num_pages - length (m_page_state m)) PageState.Clean)
               m))
         w).

(** *** Notions used to state the properties *)

(** Another process may change the shared file between two calls. *)
Definition with_file (f : SharedFileInfo) (w : world) : world :=
  mkWorld (mapping w) (memory w) (recorded_iv w) f.

(** Local page [i] occupies the bytes
    [base + i * page_size, base + (i + 1) * page_size); it overlaps
    [addr, addr + size) when the two ranges share a byte. *)
Definition page_overlaps (m : EncryptedFileMapping) (i : nat) (addr size : Z) : Prop :=
  m_addr m + Z.of_nat i * 2 ^ m_page_shift m < addr + size
  /\ addr < m_addr m + (Z.of_nat i + 1) * 2 ^ m_page_shift m.

(** The invariant of the skip-bitmap that the flush scan relies on: no
    page of a chunk flagged as not to be scanned is [Dirty] or
    [Writable]. *)
Definition skip_flags_sound (m : EncryptedFileMapping) : Prop :=
  forall i ps,
    m_page_state m !! i = Some ps -> dont_scan m i = true ->
    PageState.is_not ps (Z.lor PageState.Dirty PageState.Writable) = true.

(** What the mapping holds for local page [i]: its state, its decrypted
    memory and the IV recorded for it. *)
Definition page_view (w : world) (i : nat) : option Z * option plain * option iv :=
  (page_states w !! i, memory w !! i, recorded_iv w !! i).

(** The effect of a barrier on one page, for the shared file [f] and the
    page's global index [p]: afterwards [StaleIV] is clear and [UpToDate]
    is set; if the page was [StaleIV], then with an unchanged IV an
    up-to-date page keeps its plaintext, and with a changed IV the memory
    holds the freshly decrypted content. *)
Definition made_current (f : SharedFileInfo) (p : Z)
    (before after : option Z * option plain * option iv) : Prop :=
  exists ps ps',
    fst (fst before) = Some ps /\ fst (fst after) = Some ps'
    /\ PageState.is_ ps' PageState.StaleIV = false
    /\ PageState.is_ ps' PageState.UpToDate = true
    /\ (PageState.is_ ps PageState.StaleIV = true ->
        (read_current_iv f p = snd before ->
         PageState.is_ ps PageState.UpToDate = true ->
         snd (fst after) = snd (fst before))
        /\ (read_current_iv f p <> snd before ->
            exists text, fresh_content f p = Some text
                         /\ snd (fst after) = Some text)).

(** What a flush scan does to the state of one page. *)
Definition flushed_state (skip : bool) (ps : Z) : Z :=
  if skip then ps
  else if PageState.is_not ps PageState.Dirty then ps
  else PageState.clear ps (Z.lor PageState.Dirty PageState.Writable).

(** The pages a reclaim pass starting at [progress_ptr] evicts. *)
Definition will_evict (m : EncryptedFileMapping) (i : nat) : bool :=
  match m_page_state m !! i with
  | Some ps => negb (dont_scan m i) && reclaimable ps
  | None => false
  end.

Definition evicted_pages (w : world) (progress_ptr : Z) : list nat :=
  let start := Z.to_nat progress_ptr in
  filter (fun i => will_evict (mapping w) i = true)
         (seq start (length (page_states w) - start)).

(** Two invariants of the page table.  [Touched] is only ever set on a
    page that is [UpToDate]; a freshly created table is all [Clean]. *)
Definition touched_pages_up_to_date (m : EncryptedFileMapping) : Prop :=
  forall i ps,
    m_page_state m !! i = Some ps ->
    PageState.is_ ps PageState.Touched = true ->
    PageState.is_ ps PageState.UpToDate = true.

Definition all_clean (m : EncryptedFileMapping) : Prop :=
  forall i ps, m_page_state m !! i = Some ps -> ps = PageState.Clean.

(** *** The calls as a transition system

    The members the owning engine may call, and a change of the shared
    file by another process. *)
Inductive call : Type :=
  | CallFlush
  | CallWriteBarrier (addr size : Z)
  | CallReadBarrier (addr size : Z) (header_to_size : Header_to_size) (to_modify : bool)
  | CallMarkPagesForIVCheck
  | CallReclaimUntouched (progress_ptr accumulated_savings : Z)
  | CallExtendTo (offset new_size : Z)
  | OtherProcessWrites (f : SharedFileInfo).

Definition run (c : call) (w : world) : outcome world :=
  match c with
  | CallFlush => flush w
  | CallWriteBarrier addr size => write_barrier w addr size
  | CallReadBarrier addr size h to_modify => read_barrier w addr size h to_modify
  | CallMarkPagesForIVCheck => mark_pages_for_IV_check w
  | CallReclaimUntouched p s => r ← reclaim_untouched w p s; Ret (fst (fst r))
  | CallExtendTo offset new_size => extend_to w offset new_size
  | OtherProcessWrites f => Ret (with_file f w)
  end.

(** The worlds reached from [w] by calls that return. *)
Inductive reaches (w : world) : world -> Prop :=
  | reaches_refl : reaches w w
  | reaches_step (c : call) (w1 w2 : world) :
      reaches w w1 -> run c w1 = Ret w2 -> reaches w w2.

End Model.

(** ** A concrete instance of the collaborators

    Pages, ciphertexts and IVs are numbers; the IV is a checksum of the
    plaintext, so a block whose IV does not fit fails its integrity check.
    The shared file is a finite map from page numbers to blocks. *)
Module Toy.

Definition toy_encrypt (text : Z) : Z * Z := (Z.lxor text 90, text mod 251).

Definition toy_decrypt (c v : Z) : option Z :=
  let text := Z.lxor c 90 in
  if text mod 251 =? v then Some text else None.

#[global] Instance collaborators : Collaborators := {|
  plain := Z;
  cipher := Z;
  iv := Z;
  SharedFileInfo := gmap Z (Z * Z);
  decrypt := toy_decrypt;
  encrypt := toy_encrypt;
  read_current_iv := fun f p => snd <$> f !! p;
  fetch_page := fun f p => f !! p;
  store_page := fun f p b => <[p := b]> f;
  blank_page := 0
|}.

(** Worlds over this instance: 4 KiB pages, the mapping based at address
    0x10000 with its first page at page 5 of the file, one chunk. *)
Definition toy_mapping (states : list Z) : EncryptedFileMapping :=
  {| m_page_shift := 12; m_blocks_per_page := 1; m_addr := 65536;
     m_first_page := 5; m_num_decrypted := 0; m_page_state := states;
     m_chunk_dont_scan := [false]; m_access := access_ReadWrite |}.

Definition toy_file : gmap Z (Z * Z) :=
  {[ 5 := toy_encrypt 100; 6 := toy_encrypt 101; 7 := toy_encrypt 102 ]}.

(** Three pages opened for writing, the middle one written to. *)
Definition three_writable_one_dirty : world :=
  mkWorld (toy_mapping [11; 27; 11])
          ({[ 0%nat := 100; 1%nat := 555; 2%nat := 102 ]} : gmap nat Z)
          ({[ 0%nat := 100; 1%nat := 101; 2%nat := 102 ]} : gmap nat Z)
          toy_file.

(** Three pages opened for writing, none written to yet. *)
Definition three_writable : world :=
  mkWorld (toy_mapping [11; 11; 11])
          ({[ 0%nat := 100; 1%nat := 101; 2%nat := 102 ]} : gmap nat Z)
          ({[ 0%nat := 100; 1%nat := 101; 2%nat := 102 ]} : gmap nat Z)
          toy_file.

(** The third page is open for writing but the second is not. *)
Definition second_not_writable : world :=
  mkWorld (toy_mapping [11; 2; 11])
          ({[ 0%nat := 100; 1%nat := 101; 2%nat := 102 ]} : gmap nat Z)
          ({[ 0%nat := 100; 1%nat := 101; 2%nat := 102 ]} : gmap nat Z)
          toy_file.

(** Two pages read and up to date, a dirty one, and one never touched. *)
Definition two_cached_one_dirty : world :=
  mkWorld (toy_mapping [2; 2; 27; 0])
          ({[ 0%nat := 100; 1%nat := 101; 2%nat := 555 ]} : gmap nat Z)
          ({[ 0%nat := 100; 1%nat := 101; 2%nat := 102 ]} : gmap nat Z)
          toy_file.

(** Two pages read and up to date, the third never touched. *)
Definition two_cached : world :=
  mkWorld (toy_mapping [2; 2; 0])
          ({[ 0%nat := 100; 1%nat := 101 ]} : gmap nat Z)
          ({[ 0%nat := 100; 1%nat := 101 ]} : gmap nat Z)
          toy_file.

(** The file after another process has rewritten page 6. *)
Definition toy_file_rewritten : gmap Z (Z * Z) :=
  <[6 := toy_encrypt 777]> toy_file.

(** State of [two_cached] once marked, with the rewritten file, after the
    head of a barrier over its first two pages, and after the barrier. *)
Definition two_cached_marked : world :=
  match mark_pages_for_IV_check two_cached with
  | Ret w => w
  | _ => two_cached
  end.

Definition two_cached_after_head : world :=
  match barrier_head (with_file toy_file_rewritten two_cached_marked)
                     65536 8192 None false with
  | Ret (_, _, w) => w
  | _ => two_cached
  end.


(** A freshly mapped window of [n] pages: all [Clean], nothing decrypted. *)
Definition fresh (n : nat) : world :=
  mkWorld (toy_mapping (replicate n PageState.Clean)) ∅ ∅ toy_file.

(** One full chunk of clean pages followed by a dirty page. *)
Definition clean_chunk_then_dirty : world :=
  mkWorld {| m_page_shift := 12; m_blocks_per_page := 1; m_addr := 65536;
             m_first_page := 5; m_num_decrypted := 0;
             m_page_state := replicate 1024 PageState.Clean ++ [18];
             m_chunk_dont_scan := [false; false]; m_access := access_ReadWrite |}
          ∅ ∅ toy_file.

End Toy.

(** * Properties *)

(** ** Machine arithmetic *)
Module SizeTFacts.
Import SizeT.

Lemma modulus_pos : 0 < modulus.
Proof. reflexivity. Qed.

Lemma wrap_range z : in_range (wrap z).
Proof. unfold in_range, wrap. apply Z.mod_pos_bound, modulus_pos. Qed.

Lemma wrap_small z : in_range z -> wrap z = z.
Proof. unfold in_range, wrap. intros H. now apply Z.mod_small. Qed.

Lemma sub_exact a b : in_range a -> in_range b -> b <= a -> sub a b = a - b.
Proof.
  unfold sub, in_range. intros Ha Hb Hle. apply wrap_small. unfold in_range. lia.
Qed.

Lemma sub_wrapped a b :
  in_range a -> in_range b -> a < b -> sub a b = a - b + modulus.
Proof.
  unfold sub, wrap, in_range. intros Ha Hb Hlt.
  symmetry. apply (Z.mod_unique_pos _ _ (-1)); lia.
Qed.

Lemma shr_div a s : 0 <= s -> shr a s = a / 2 ^ s.
Proof. intros Hs. unfold shr. now apply Z.shiftr_div_pow2. Qed.

Lemma shr_nonneg a s : 0 <= a -> 0 <= shr a s.
Proof. intros Ha. unfold shr. now apply Z.shiftr_nonneg. Qed.

Lemma pow2_shift_range s : 0 <= s < bits -> 1 <= 2 ^ s < modulus.
Proof.
  intros [H0 H1]. split.
  - assert (0 < 2 ^ s) by (apply Z.pow_pos_nonneg; lia). lia.
  - unfold modulus. apply Z.pow_lt_mono_r; lia.
Qed.

(** The page mask [(1ULL << shift) - 1]. *)
Lemma mask_ones s : 0 <= s < bits -> sub (shl 1 s) 1 = Z.ones s.
Proof.
  intros Hs. pose proof (pow2_shift_range s Hs) as Hp.
  unfold shl. rewrite Z.shiftl_1_l.
  rewrite (wrap_small (2 ^ s)) by (unfold in_range; lia).
  rewrite sub_exact; unfold in_range; try lia.
  rewrite Z.ones_equiv. lia.
Qed.

End SizeTFacts.

(** Range side conditions on literals. *)
Ltac range_literal := unfold SizeT.in_range, SizeT.modulus, SizeT.bits; cbn; lia.

Lemma sample_mapping_wf : wf_mapping sample_mapping.
Proof. split; range_literal. Qed.

(** ** Address translation *)

(** C1. [contains_page] is true exactly for the global page indices in
    [m_first_page, m_first_page + table length), and the one unsigned
    subtraction it may evaluate is evaluated only with a minuend that is
    at least the subtrahend, so it never wraps below zero. *)
Theorem contains_page_iff_in_window (m : EncryptedFileMapping) (p : Z) :
  SizeT.in_range (m_first_page m) -> SizeT.in_range p ->
  (contains_page m p = true <-> m_first_page m <= p < m_first_page m + page_count m)
  /\ Forall (fun ab => SizeT.sub_wraps (fst ab) (snd ab) = false)
            (snd (contains_page_traced m p)).
Proof.
  intros Hf Hp. unfold contains_page, contains_page_traced.
  destruct (Z.leb_spec (m_first_page m) p) as [Hle | Hlt]; cbn [fst snd].
  - rewrite SizeTFacts.sub_exact by assumption. split.
    + rewrite Z.ltb_lt. lia.
    + constructor; [| constructor]. cbn. unfold SizeT.sub_wraps.
      apply Z.ltb_ge. exact Hle.
  - split; [| constructor]. split; [discriminate | lia].
Qed.

Lemma contains_page_iff_in_window_witness :
  (contains_page sample_mapping 7 = true <-> 5 <= 7 < 5 + 3)
  /\ Forall (fun ab => SizeT.sub_wraps (fst ab) (snd ab) = false)
            (snd (contains_page_traced sample_mapping 7)).
Proof.
  apply (contains_page_iff_in_window sample_mapping 7); range_literal.
Defined.

Lemma raw_local_index_nonneg m addr offset : 0 <= raw_local_index m addr offset.
Proof.
  unfold raw_local_index. apply SizeTFacts.shr_nonneg.
  destruct (SizeTFacts.wrap_range (SizeT.sub addr (m_addr m) + offset)) as [H0 _].
  exact H0.
Qed.

Lemma raw_local_index_exact m addr offset :
  wf_mapping m -> SizeT.in_range addr -> m_addr m <= addr -> 0 <= offset ->
  addr - m_addr m + offset < SizeT.modulus ->
  raw_local_index m addr offset = (addr - m_addr m + offset) / 2 ^ m_page_shift m.
Proof.
  intros [Hs Ha _] Hr Hle Ho Hsum. unfold raw_local_index.
  rewrite SizeTFacts.sub_exact by assumption.
  unfold SizeT.add. rewrite SizeTFacts.wrap_small by (unfold SizeT.in_range; lia).
  apply SizeTFacts.shr_div. lia.
Qed.

Lemma get_local_index_of_address_Ret m addr offset v :
  get_local_index_of_address m addr offset = Ret v <->
  m_addr m <= addr /\ v = raw_local_index m addr offset /\ v < page_count m.
Proof.
  unfold get_local_index_of_address, REALM_ASSERT. fold (raw_local_index m addr offset).
  destruct (Z.leb_spec (m_addr m) addr) as [Hle | Hlt].
  - destruct (Z.ltb_spec (raw_local_index m addr offset) (page_count m)) as [Hin | Hout].
    + split.
      * intros [= <-]. auto.
      * intros (_ & -> & _). reflexivity.
    + split; [discriminate | intros (_ & -> & Hv); lia].
  - split; [discriminate | intros (Hle & _); lia].
Qed.

Lemma get_local_index_of_address_Fatal m addr offset :
  get_local_index_of_address m addr offset = Fatal <->
  addr < m_addr m \/ page_count m <= raw_local_index m addr offset.
Proof.
  unfold get_local_index_of_address, REALM_ASSERT. fold (raw_local_index m addr offset).
  destruct (Z.leb_spec (m_addr m) addr) as [Hle | Hlt].
  - destruct (Z.ltb_spec (raw_local_index m addr offset) (page_count m)) as [Hin | Hout].
    + split; [discriminate | lia].
    + split; auto.
  - split; auto.
Qed.

(** C2. [get_local_index_of_address] returns
    [(addr - base + offset) >> page_shift], computed on [size_t], exactly
    when [addr] does not precede the base and that index is below the
    table length; the index returned is then inside [0, table length).
    In every other case (the address precedes the base, or the index is
    out of range) the call is fatal; it never throws.  When the sum does
    not exceed the range of [size_t] the index is the mathematical
    quotient by the page size. *)
Theorem get_local_index_of_address_spec (m : EncryptedFileMapping) (addr offset : Z) :
  wf_mapping m -> SizeT.in_range addr -> SizeT.in_range offset ->
  let ndx := SizeT.shr (SizeT.add (SizeT.sub addr (m_addr m)) offset) (m_page_shift m) in
  (forall v, get_local_index_of_address m addr offset = Ret v <->
             m_addr m <= addr /\ v = ndx /\ 0 <= v < page_count m)
  /\ (get_local_index_of_address m addr offset = Fatal <->
      addr < m_addr m \/ page_count m <= ndx)
  /\ (forall e, get_local_index_of_address m addr offset <> Raise e)
  /\ (m_addr m <= addr -> addr - m_addr m + offset < SizeT.modulus ->
      ndx = (addr - m_addr m + offset) / 2 ^ m_page_shift m).
Proof.
  intros Hwf Ha Ho ndx. fold (raw_local_index m addr offset) in ndx. subst ndx.
  pose proof (raw_local_index_nonneg m addr offset) as Hnn.
  split; [| split; [| split]].
  - intros v. rewrite get_local_index_of_address_Ret. split.
    + intros (Hle & -> & Hr). auto.
    + intros (Hle & Hv & _ & Hr). auto.
  - apply get_local_index_of_address_Fatal.
  - intros e. unfold get_local_index_of_address, REALM_ASSERT.
    repeat case_match; discriminate.
  - intros Hle Hsum. apply raw_local_index_exact; try assumption.
    destruct Ho; assumption.
Qed.

Lemma get_local_index_of_address_spec_witness :
  get_local_index_of_address sample_mapping 73830 100 = Ret 2
  /\ 2 = (73830 - 65536 + 100) / 2 ^ 12.
Proof.
  destruct (get_local_index_of_address_spec sample_mapping 73830 100)
    as (HRet & _ & _ & Hexact).
  - exact sample_mapping_wf.
  - range_literal.
  - range_literal.
  - split.
    + apply HRet. vm_compute. repeat split; discriminate.
    + reflexivity.
Defined.

(** The sum is formed in [size_t]: with an offset near the top of the
    range it wraps, and the index is that of the wrapped sum. *)
Example local_index_of_wrapped_sum :
  get_local_index_of_address sample_mapping 65537 (SizeT.modulus - 1) = Ret 0.
Proof. reflexivity. Qed.

(** Past the last page the translation is fatal. *)
Example local_index_out_of_table :
  get_local_index_of_address sample_mapping (65536 + 3 * 4096) 0 = Fatal.
Proof. reflexivity. Qed.

Lemma get_offset_of_address_Ret m addr :
  wf_mapping m -> SizeT.in_range addr -> m_addr m <= addr ->
  get_offset_of_address m addr = Ret ((addr - m_addr m) mod 2 ^ m_page_shift m).
Proof.
  intros [Hs Ha _] Hr Hle. unfold get_offset_of_address, REALM_ASSERT.
  destruct (Z.leb_spec (m_addr m) addr) as [_ | Hlt]; [| lia].
  rewrite SizeTFacts.mask_ones by assumption.
  rewrite SizeTFacts.sub_exact by assumption.
  unfold SizeT.and. rewrite Z.land_ones by lia. reflexivity.
Qed.

(** C7. When [addr] does not precede the base, [get_offset_of_address]
    returns [(addr - base) & (page_size - 1)], which is the offset of
    [addr] in its page; when [addr] precedes the base the call is
    fatal. *)
Theorem get_offset_of_address_spec (m : EncryptedFileMapping) (addr : Z) :
  wf_mapping m -> SizeT.in_range addr ->
  (m_addr m <= addr ->
     get_offset_of_address m addr
       = Ret (Z.land (addr - m_addr m) (2 ^ m_page_shift m - 1))
     /\ Z.land (addr - m_addr m) (2 ^ m_page_shift m - 1)
        = (addr - m_addr m) mod 2 ^ m_page_shift m)
  /\ (addr < m_addr m -> get_offset_of_address m addr = Fatal).
Proof.
  intros Hwf Hr. split.
  - intros Hle.
    assert (Z.land (addr - m_addr m) (2 ^ m_page_shift m - 1)
            = (addr - m_addr m) mod 2 ^ m_page_shift m) as Hmask.
    { destruct Hwf as [Hs _ _].
      replace (2 ^ m_page_shift m - 1) with (Z.ones (m_page_shift m))
        by (rewrite Z.ones_equiv; lia).
      apply Z.land_ones. lia. }
    split; [| exact Hmask].
    rewrite Hmask. now apply get_offset_of_address_Ret.
  - intros Hlt. unfold get_offset_of_address, REALM_ASSERT.
    destruct (Z.leb_spec (m_addr m) addr); [lia | reflexivity].
Qed.

Lemma get_offset_of_address_spec_witness :
  get_offset_of_address sample_mapping 73830 = Ret (Z.land (73830 - 65536) (2 ^ 12 - 1))
  /\ get_offset_of_address sample_mapping 65535 = Fatal.
Proof.
  split.
  - apply (get_offset_of_address_spec sample_mapping 73830);
      [exact sample_mapping_wf | range_literal | cbn; lia].
  - apply (get_offset_of_address_spec sample_mapping 65535);
      [exact sample_mapping_wf | range_literal | cbn; lia].
Defined.

(** C9. The minimum encrypted file size is 8192 bytes, a legal [size_t]
    value. *)
Theorem c_min_encrypted_file_size_value :
  c_min_encrypted_file_size = 8192 /\ SizeT.in_range c_min_encrypted_file_size.
Proof. split; [reflexivity | unfold c_min_encrypted_file_size; range_literal]. Qed.

(** C10. For an address at or after the base whose page index (with no
    extra offset) is in range, the index shifted left by the page shift
    plus the offset in the page is [addr - base], both on [size_t] and in
    unbounded arithmetic, and the offset is below the page size. *)
Theorem address_translation_decomposes (m : EncryptedFileMapping) (addr idx : Z) :
  wf_mapping m -> SizeT.in_range addr -> m_addr m <= addr ->
  get_local_index_of_address m addr 0 = Ret idx ->
  exists off,
    get_offset_of_address m addr = Ret off
    /\ SizeT.add (SizeT.shl idx (m_page_shift m)) off = addr - m_addr m
    /\ Z.shiftl idx (m_page_shift m) + off = addr - m_addr m
    /\ 0 <= off < 2 ^ m_page_shift m.
Proof.
  intros Hwf Hr Hle Hidx.
  apply get_local_index_of_address_Ret in Hidx as (_ & Hv & _).
  rewrite raw_local_index_exact in Hv; try assumption; try lia.
  2:{ destruct Hwf as [_ [? ?] _]. destruct Hr. lia. }
  rewrite Z.add_0_r in Hv.
  exists ((addr - m_addr m) mod 2 ^ m_page_shift m).
  destruct Hwf as [Hs Ha Hf].
  assert (0 < 2 ^ m_page_shift m) as Hpos by (apply Z.pow_pos_nonneg; lia).
  pose proof (Z.mod_pos_bound (addr - m_addr m) _ Hpos) as Hoff.
  pose proof (Z.div_mod (addr - m_addr m) (2 ^ m_page_shift m)) as Hdm.
  assert (Z.shiftl idx (m_page_shift m) = 2 ^ m_page_shift m * idx) as Hshl.
  { rewrite Z.shiftl_mul_pow2 by lia. lia. }
  split; [| split; [| split]].
  - apply get_offset_of_address_Ret; [split; assumption | assumption | assumption].
  - unfold SizeT.add, SizeT.shl. rewrite Hshl, Hv.
    destruct Ha, Hr.
    assert (0 <= 2 ^ m_page_shift m * ((addr - m_addr m) / 2 ^ m_page_shift m)
            <= addr - m_addr m) as Hq.
    { split; [apply Z.mul_nonneg_nonneg; [lia | apply Z.div_pos; lia] | lia]. }
    rewrite (SizeTFacts.wrap_small (2 ^ _ * _)) by (unfold SizeT.in_range; lia).
    rewrite SizeTFacts.wrap_small by (unfold SizeT.in_range; lia). lia.
  - rewrite Hshl, Hv. lia.
  - exact Hoff.
Qed.

Lemma address_translation_decomposes_witness :
  exists off,
    get_offset_of_address sample_mapping 73830 = Ret off
    /\ SizeT.add (SizeT.shl 2 12) off = 73830 - 65536
    /\ Z.shiftl 2 12 + off = 73830 - 65536
    /\ 0 <= off < 2 ^ 12.
Proof.
  apply (address_translation_decomposes sample_mapping 73830 2).
  - exact sample_mapping_wf.
  - range_literal.
  - cbn. lia.
  - reflexivity.
Defined.

(** ** Page-state flags as bits *)
Module PageStateFacts.
Import PageState.

Lemma land_pow2_eqb ps k :
  0 <= k -> (Z.land ps (2 ^ k) =? 0) = negb (Z.testbit ps k).
Proof.
  intros Hk. destruct (Z.testbit ps k) eqn:Hbit; cbn.
  - apply Z.eqb_neq. intros Hz.
    assert (Z.testbit (Z.land ps (2 ^ k)) k = true) as Hone.
    { rewrite Z.land_spec, Hbit, Z.pow2_bits_true by assumption. reflexivity. }
    rewrite Hz, Z.bits_0 in Hone. discriminate.
  - apply Z.eqb_eq. apply Z.bits_inj'. intros n Hn.
    rewrite Z.land_spec, Z.bits_0, Z.pow2_bits_eqb by assumption.
    destruct (Z.eqb_spec k n) as [-> | _].
    + rewrite Hbit. reflexivity.
    + apply andb_false_r.
Qed.

Lemma is_not_negb ps p : is_not ps p = negb (is_ ps p).
Proof. unfold is_not, is_. now rewrite negb_involutive. Qed.

Lemma is_bit ps k : 0 <= k -> is_ ps (2 ^ k) = Z.testbit ps k.
Proof. intros Hk. unfold is_. rewrite land_pow2_eqb by assumption. apply negb_involutive. Qed.

Lemma is_lor ps p q : is_ ps (Z.lor p q) = is_ ps p || is_ ps q.
Proof.
  unfold is_. rewrite Z.land_lor_distr_r, <- negb_andb. f_equal.
  destruct (Z.eqb_spec (Z.land ps p) 0) as [Hp | Hp];
    destruct (Z.eqb_spec (Z.land ps q) 0) as [Hq | Hq]; cbn;
    [apply Z.eqb_eq | apply Z.eqb_neq | apply Z.eqb_neq | apply Z.eqb_neq];
    rewrite Z.lor_eq_0_iff; tauto.
Qed.

Lemma is_not_lor ps p q : is_not ps (Z.lor p q) = is_not ps p && is_not ps q.
Proof. rewrite !is_not_negb, is_lor. apply negb_orb. Qed.

Lemma is_Touched ps : is_ ps Touched = Z.testbit ps 0.
Proof. apply (is_bit ps 0). lia. Qed.
Lemma is_UpToDate ps : is_ ps UpToDate = Z.testbit ps 1.
Proof. apply (is_bit ps 1). lia. Qed.
Lemma is_StaleIV ps : is_ ps StaleIV = Z.testbit ps 2.
Proof. apply (is_bit ps 2). lia. Qed.
Lemma is_Writable ps : is_ ps Writable = Z.testbit ps 3.
Proof. apply (is_bit ps 3). lia. Qed.
Lemma is_Dirty ps : is_ ps Dirty = Z.testbit ps 4.
Proof. apply (is_bit ps 4). lia. Qed.

Lemma testbit_clear ps p k :
  0 <= k -> Z.testbit (clear ps p) k = Z.testbit ps k && negb (Z.testbit p k).
Proof. intros Hk. unfold clear. now rewrite Z.land_spec, Z.lnot_spec. Qed.

Lemma testbit_set ps p k : Z.testbit (set ps p) k = Z.testbit ps k || Z.testbit p k.
Proof. unfold set. apply Z.lor_spec. Qed.

End PageStateFacts.

(** Turn every flag test on a state built with [clear] and [set] from the
    flag constants into a Boolean expression over the bits of the
    original state. *)
Ltac const_bit c k :=
  let v := eval vm_compute in (Z.testbit c k) in
  change (Z.testbit c k) with v in *.

Ltac const_bits c :=
  const_bit c 0; const_bit c 1; const_bit c 2; const_bit c 3; const_bit c 4.

Ltac flag_bits :=
  rewrite ?PageStateFacts.is_not_lor, ?PageStateFacts.is_lor in *;
  rewrite ?PageStateFacts.is_not_negb in *;
  rewrite ?PageStateFacts.is_Touched, ?PageStateFacts.is_UpToDate,
    ?PageStateFacts.is_StaleIV, ?PageStateFacts.is_Writable,
    ?PageStateFacts.is_Dirty in *;
  repeat (rewrite ?PageStateFacts.testbit_set, ?PageStateFacts.testbit_clear,
            ?Z.lor_spec in * by lia);
  unfold PageState.Touched, PageState.UpToDate, PageState.StaleIV,
    PageState.Writable, PageState.Dirty in *;
  const_bits 1; const_bits 2; const_bits 4; const_bits 8; const_bits 16;
  cbn [negb andb orb] in *;
  rewrite ?andb_true_r, ?andb_false_r, ?orb_true_r, ?orb_false_r in *.

(** After [flag_bits], case analysis on the bits that remain. *)
Ltac flag_cases :=
  flag_bits;
  repeat match goal with
         | H : context [Z.testbit ?x ?k] |- _ => destruct (Z.testbit x k)
         | |- context [Z.testbit ?x ?k] => destruct (Z.testbit x k)
         end;
  cbn [negb andb orb] in *;
  try discriminate; try reflexivity; auto.

(** ** flush *)
Section Flush.
Context `{Collaborators}.

Lemma flush_page_Ret (i : nat) (w : world) :
  exists w',
    flush_page i w = Ret w'
    /\ memory w' = memory w
    /\ m_chunk_dont_scan (mapping w') = m_chunk_dont_scan (mapping w)
    /\ forall j, page_states w' !! j
                 = if decide (j = i)
                   then flushed_state (dont_scan (mapping w) i) <$> page_states w !! j
                   else page_states w !! j.
Proof.
  unfold flush_page, page_states.
  destruct (m_page_state (mapping w) !! i) as [ps |] eqn:Hps.
  - destruct (dont_scan (mapping w) i) eqn:Hskip;
      [| destruct (PageState.is_not ps PageState.Dirty) eqn:Hd].
    + exists w. repeat split; try reflexivity.
      intros j. case_decide; [subst j; rewrite Hps |]; reflexivity.
    + exists w. repeat split; try reflexivity.
      intros j. case_decide; [subst j; rewrite Hps |]; try reflexivity.
      cbn. unfold flushed_state. rewrite Hd. reflexivity.
    + eexists. split; [reflexivity |]. cbn. repeat split.
      intros j. case_decide as Hj.
      * subst j. rewrite Hps. cbn. unfold flushed_state. rewrite Hd.
        apply list_lookup_insert_eq. now apply lookup_lt_Some in Hps.
      * apply list_lookup_insert_ne. congruence.
  - exists w. repeat split; try reflexivity.
    intros j. case_decide; [subst j; rewrite Hps |]; reflexivity.
Qed.

Lemma flush_loop (count : nat) :
  forall (idx : nat) (w : world),
  exists w',
    for_loop idx count flush_page w = Ret w'
    /\ memory w' = memory w
    /\ m_chunk_dont_scan (mapping w') = m_chunk_dont_scan (mapping w)
    /\ forall j, page_states w' !! j
                 = if decide (idx <= j < idx + count)%nat
                   then flushed_state (dont_scan (mapping w) j) <$> page_states w !! j
                   else page_states w !! j.
Proof.
  induction count as [| count IH]; intros idx w.
  - exists w. repeat split; try reflexivity.
    intros j. case_decide; [lia | reflexivity].
  - destruct (flush_page_Ret idx w) as (w1 & Hstep & Hmem1 & Hchunk1 & Hst1).
    destruct (IH (Datatypes.S idx) w1) as (w' & Hrest & Hmem & Hchunk & Hst).
    exists w'. cbn [for_loop]. rewrite Hstep. cbn. split; [exact Hrest |].
    split; [congruence |]. split; [congruence |].
    intros j. rewrite Hst, Hst1.
    unfold dont_scan. rewrite Hchunk1.
    repeat case_decide; try lia; try reflexivity.
    subst j. reflexivity.
Qed.

Lemma flush_Ret (w : world) :
  exists w',
    flush w = Ret w'
    /\ memory w' = memory w
    /\ forall j, page_states w' !! j
                 = flushed_state (dont_scan (mapping w) j) <$> page_states w !! j.
Proof.
  destruct (flush_loop (length (page_states w)) 0 w) as (w1 & Hloop & Hmem & _ & Hst).
  unfold flush. rewrite Hloop. cbn. eexists. split; [reflexivity |].
  split; [exact Hmem |].
  intros j. unfold page_states at 1. cbn. fold (page_states w1). rewrite Hst.
  case_decide as Hj; [reflexivity |].
  rewrite (proj2 (lookup_ge_None (page_states w) j)) by lia. reflexivity.
Qed.

(** C3. [flush] always returns normally: it neither throws nor aborts.
    When the skip-bitmap is sound, every page that was [Dirty] ends with
    [Dirty] and [Writable] clear and with its other flags, [UpToDate]
    among them, as before; every page that was not [Dirty] keeps its
    state, so a page that is [Writable] but not [Dirty] stays
    [Writable]; the table keeps its length. *)
Theorem flush_clears_dirty_pages_only (w : world) :
  skip_flags_sound (mapping w) ->
  exists w',
    flush w = Ret w'
    /\ length (page_states w') = length (page_states w)
    /\ forall i ps,
         page_states w !! i = Some ps ->
         (PageState.is_ ps PageState.Dirty = true ->
            exists ps',
              page_states w' !! i = Some ps'
              /\ ps' = PageState.clear ps (Z.lor PageState.Dirty PageState.Writable)
              /\ PageState.is_ ps' PageState.Dirty = false
              /\ PageState.is_ ps' PageState.Writable = false
              /\ PageState.is_ ps' PageState.UpToDate = PageState.is_ ps PageState.UpToDate
              /\ PageState.is_ ps' PageState.Touched = PageState.is_ ps PageState.Touched
              /\ PageState.is_ ps' PageState.StaleIV = PageState.is_ ps PageState.StaleIV)
         /\ (PageState.is_ ps PageState.Dirty = false ->
               page_states w' !! i = Some ps).
Proof.
  intros Hsound.
  destruct (flush_Ret w) as (w' & Hflush & _ & Hst).
  exists w'. split; [exact Hflush |]. split.
  - destruct (Nat.lt_trichotomy (length (page_states w')) (length (page_states w)))
      as [Hlt | [Heq | Hgt]]; [| exact Heq |].
    + apply lookup_lt_is_Some in Hlt as [ps Hps].
      pose proof (Hst (length (page_states w'))) as Hj.
      rewrite Hps in Hj. cbn in Hj.
      apply lookup_lt_Some in Hj. lia.
    + apply lookup_lt_is_Some in Hgt as [ps Hps].
      pose proof (Hst (length (page_states w))) as Hj.
      rewrite Hps in Hj.
      rewrite (proj2 (lookup_ge_None (page_states w) _)) in Hj by lia.
      discriminate.
  - intros i ps Hps. rewrite Hst, Hps. cbn. unfold flushed_state. split.
    + intros Hd.
      assert (dont_scan (mapping w) i = false) as ->.
      { destruct (dont_scan (mapping w) i) eqn:Hskip; [| reflexivity].
        specialize (Hsound i ps Hps Hskip). revert Hsound Hd. clear.
        intros. flag_cases. }
      rewrite PageStateFacts.is_not_negb, Hd. cbn [negb].
      eexists. split; [reflexivity |]. split; [reflexivity |].
      clear - Hd. repeat split; flag_cases.
    + intros Hd. rewrite PageStateFacts.is_not_negb, Hd. cbn.
      destruct (dont_scan (mapping w) i); reflexivity.
Qed.

(** [flush] is [noexcept]: whatever the state, it returns. *)
Lemma flush_noexcept (w : world) : exists w', flush w = Ret w'.
Proof. destruct (flush_Ret w) as (w' & Hflush & _). eauto. Qed.

End Flush.

(** ** Pages overlapping a byte range *)

Lemma div_le_iff a P i : 0 < P -> (a / P <= i <-> a < (i + 1) * P).
Proof.
  intros HP. pose proof (Z.mul_succ_div_gt a P HP) as Hgt.
  split.
  - intros Hle. nia.
  - intros Hlt. assert (a / P < i + 1); [| lia].
    apply Z.div_lt_upper_bound; lia.
Qed.

Lemma le_div_iff a P i : 0 < P -> (i <= a / P <-> i * P <= a).
Proof.
  intros HP. pose proof (Z.mul_div_le a P HP) as Hle.
  split.
  - intros Hi. nia.
  - intros Hi. apply Z.div_le_lower_bound; lia.
Qed.

Lemma page_overlaps_iff (m : EncryptedFileMapping) (i : nat) (addr size : Z) :
  wf_mapping m -> SizeT.in_range addr -> m_addr m <= addr -> 0 < size ->
  addr - m_addr m + size <= SizeT.modulus ->
  page_overlaps m i addr size <->
  raw_local_index m addr 0 <= Z.of_nat i <= raw_local_index m addr (size - 1).
Proof.
  intros Hwf Hr Hle Hsize Hsum.
  rewrite !raw_local_index_exact by (try assumption; lia).
  destruct Hwf as [Hs _ _].
  assert (0 < 2 ^ m_page_shift m) as HP by (apply Z.pow_pos_nonneg; lia).
  unfold page_overlaps. rewrite div_le_iff, le_div_iff by exact HP. lia.
Qed.

(** ** write_barrier *)
Section WriteBarrier.
Context `{Collaborators}.

Lemma mark_dirty_cases (i : nat) (w : world) :
  match page_states w !! i with
  | Some ps =>
      if PageState.is_ ps PageState.Writable
      then exists w',
             mark_dirty i w = Ret w'
             /\ memory w' = memory w /\ recorded_iv w' = recorded_iv w
             /\ file w' = file w
             /\ forall j, page_states w' !! j
                          = if decide (j = i)
                            then Some (PageState.set ps PageState.Dirty)
                            else page_states w !! j
      else mark_dirty i w = Fatal
  | None => mark_dirty i w = Fatal
  end.
Proof.
  unfold mark_dirty, page_states, REALM_ASSERT.
  destruct (m_page_state (mapping w) !! i) as [ps |] eqn:Hps; [| reflexivity].
  destruct (PageState.is_ ps PageState.Writable); [| reflexivity].
  eexists. split; [reflexivity |]. cbn. repeat split.
  intros j. case_decide as Hj.
  - subst j. apply list_lookup_insert_eq. now apply lookup_lt_Some in Hps.
  - apply list_lookup_insert_ne. congruence.
Qed.

Lemma mark_dirty_loop_Ret (count : nat) :
  forall (idx : nat) (w : world),
    (forall j, (idx <= j < idx + count)%nat ->
               exists ps, page_states w !! j = Some ps
                          /\ PageState.is_ ps PageState.Writable = true) ->
    exists w',
      for_loop idx count mark_dirty w = Ret w'
      /\ memory w' = memory w /\ recorded_iv w' = recorded_iv w
      /\ file w' = file w
      /\ forall j, page_states w' !! j
                   = if decide (idx <= j < idx + count)%nat
                     then (fun ps => PageState.set ps PageState.Dirty)
                            <$> page_states w !! j
                     else page_states w !! j.
Proof.
  induction count as [| count IH]; intros idx w Hall.
  - exists w. repeat split; try reflexivity.
    intros j. case_decide; [lia | reflexivity].
  - destruct (Hall idx) as (ps & Hps & Hw); [lia |].
    pose proof (mark_dirty_cases idx w) as Hstep. rewrite Hps, Hw in Hstep.
    destruct Hstep as (w1 & Hstep & Hm1 & Hiv1 & Hf1 & Hst1).
    destruct (IH (Datatypes.S idx) w1) as (w' & Hrest & Hm & Hiv & Hf & Hst).
    { intros j Hj. rewrite Hst1. case_decide; [lia |]. apply Hall. lia. }
    exists w'. cbn [for_loop]. rewrite Hstep. cbn.
    split; [exact Hrest |]. repeat split; try congruence.
    intros j. rewrite Hst, Hst1.
    repeat case_decide; try lia; try reflexivity.
    subst j. rewrite Hps. reflexivity.
Qed.

Lemma mark_dirty_loop_Fatal (count : nat) :
  forall (idx : nat) (w : world) (j : nat) (ps : Z),
    (idx <= j < idx + count)%nat ->
    page_states w !! j = Some ps ->
    PageState.is_ ps PageState.Writable = false ->
    for_loop idx count mark_dirty w = Fatal.
Proof.
  induction count as [| count IH]; intros idx w j ps Hj Hps Hw; [lia |].
  cbn [for_loop]. pose proof (mark_dirty_cases idx w) as Hstep.
  destruct (page_states w !! idx) as [ps0 |] eqn:Hps0;
    [| rewrite Hstep; reflexivity].
  destruct (PageState.is_ ps0 PageState.Writable) eqn:Hw0;
    [| rewrite Hstep; reflexivity].
  destruct Hstep as (w1 & Hstep & _ & _ & _ & Hst1). rewrite Hstep. cbn.
  assert (j <> idx) as Hne by (intros ->; congruence).
  apply (IH _ _ j ps); [lia | | exact Hw].
  rewrite Hst1. case_decide; [contradiction | exact Hps].
Qed.

(** C4. For a non-empty byte range at or after the base: if every page
    overlapping [addr, addr + size) is in the table and [Writable], then
    [write_barrier] returns, each of those pages has [Dirty] set on top of
    the flags it had, every other page keeps its state, and nothing was
    encrypted: the decrypted memory, the recorded IVs and the shared file
    are those before the call.  If some overlapping page is not
    [Writable], the call is fatal. *)
Theorem write_barrier_marks_overlapping_pages_dirty (w : world) (addr size : Z) :
  wf_mapping (mapping w) -> SizeT.in_range addr -> m_addr (mapping w) <= addr ->
  0 < size -> addr - m_addr (mapping w) + size <= SizeT.modulus ->
  ((forall i, page_overlaps (mapping w) i addr size ->
              exists ps, page_states w !! i = Some ps
                         /\ PageState.is_ ps PageState.Writable = true) ->
   exists w',
     write_barrier w addr size = Ret w'
     /\ memory w' = memory w /\ recorded_iv w' = recorded_iv w /\ file w' = file w
     /\ forall i ps,
          page_states w !! i = Some ps ->
          (page_overlaps (mapping w) i addr size ->
             page_states w' !! i = Some (PageState.set ps PageState.Dirty)
             /\ PageState.is_ (PageState.set ps PageState.Dirty) PageState.Dirty = true)
          /\ (~ page_overlaps (mapping w) i addr size ->
                page_states w' !! i = Some ps))
  /\ ((exists i ps, page_overlaps (mapping w) i addr size
                    /\ page_states w !! i = Some ps
                    /\ PageState.is_ ps PageState.Writable = false) ->
      write_barrier w addr size = Fatal).
Proof.
  intros Hwf Hr Hle Hsize Hsum.
  pose proof (fun i => page_overlaps_iff (mapping w) i addr size Hwf Hr Hle Hsize Hsum)
    as Hov.
  pose proof (raw_local_index_nonneg (mapping w) addr 0) as Hf0.
  assert (raw_local_index (mapping w) addr 0
          <= raw_local_index (mapping w) addr (size - 1)) as Hmono.
  { rewrite !raw_local_index_exact by (try assumption; lia).
    destruct Hwf as [Hs _ _].
    apply Z.div_le_mono; [apply Z.pow_pos_nonneg; lia | lia]. }
  set (first := raw_local_index (mapping w) addr 0) in *.
  set (last := raw_local_index (mapping w) addr (size - 1)) in *.
  unfold write_barrier. destruct (Z.eqb_spec size 0) as [-> | _]; [lia |].
  split.
  - intros Hall.
    assert (forall j, first <= Z.of_nat j <= last ->
                      exists ps, page_states w !! j = Some ps
                                 /\ PageState.is_ ps PageState.Writable = true) as Hall'.
    { intros j Hj. apply Hall, Hov, Hj. }
    assert (last < page_count (mapping w)) as Hlast.
    { destruct (Hall' (Z.to_nat last)) as (ps & Hps & _); [lia |].
      apply lookup_lt_Some in Hps. unfold page_count, page_states in *. lia. }
    assert (get_local_index_of_address (mapping w) addr 0 = Ret first) as ->.
    { apply get_local_index_of_address_Ret. repeat split; [assumption | lia]. }
    assert (get_local_index_of_address (mapping w) addr (size - 1) = Ret last) as ->.
    { apply get_local_index_of_address_Ret. repeat split; assumption. }
    cbn.
    destruct (mark_dirty_loop_Ret (Z.to_nat (last + 1 - first)) (Z.to_nat first) w)
      as (w' & Hloop & Hm & Hiv & Hf & Hst).
    { intros j Hj. apply Hall'. lia. }
    exists w'. split; [exact Hloop |].
    split; [exact Hm |]. split; [exact Hiv |]. split; [exact Hf |].
    intros i ps Hps. split; [intros Hi; split | intros Hno].
    + rewrite Hst, Hps. case_decide as Hj; [reflexivity |].
      apply Hov in Hi. lia.
    + clear. flag_cases.
    + rewrite Hst, Hps. case_decide as Hj; [| reflexivity].
      exfalso. apply Hno, Hov. lia.
  - intros (i & ps & Hi & Hps & Hw). apply Hov in Hi.
    destruct (get_local_index_of_address (mapping w) addr 0) as [v1 | |] eqn:H1;
      [| reflexivity |].
    2:{ exfalso. revert H1. unfold get_local_index_of_address, REALM_ASSERT.
        repeat case_match; discriminate. }
    apply get_local_index_of_address_Ret in H1 as (_ & -> & _). cbn.
    destruct (get_local_index_of_address (mapping w) addr (size - 1)) as [v2 | |] eqn:H2;
      [| reflexivity |].
    2:{ exfalso. revert H2. unfold get_local_index_of_address, REALM_ASSERT.
        repeat case_match; discriminate. }
    apply get_local_index_of_address_Ret in H2 as (_ & -> & _). cbn.
    apply (mark_dirty_loop_Fatal _ _ _ i ps); [| exact Hps | exact Hw].
    fold first last. lia.
Qed.

End WriteBarrier.

(** ** reclaim_untouched *)
Section Reclaim.
Context `{Collaborators}.

Lemma filter_ext_elem (P Q : nat -> Prop)
    `{!forall x, Decision (P x)} `{!forall x, Decision (Q x)} (l : list nat) :
  (forall x, x ∈ l -> (P x <-> Q x)) -> filter P l = filter Q l.
Proof.
  induction l as [| a l IH]; intros Hext; [reflexivity |].
  rewrite !filter_cons.
  rewrite IH by (intros x Hx; apply Hext; now right).
  assert (P a <-> Q a) as Ha by (apply Hext; now left).
  repeat case_decide; tauto.
Qed.

Lemma will_evict_ext (m m' : EncryptedFileMapping) (j : nat) :
  m_page_state m' !! j = m_page_state m !! j ->
  m_chunk_dont_scan m' = m_chunk_dont_scan m ->
  will_evict m' j = will_evict m j.
Proof.
  intros Hst Hch. unfold will_evict, dont_scan. rewrite Hst, Hch. reflexivity.
Qed.

(** One step of the scan: page [i] is evicted exactly when [will_evict]
    says so, and no other page is touched. *)
Lemma reclaim_step_cases (i : nat) (w : world) (s : Z) :
  exists w' s',
    reclaim_step i (w, s) = Ret (w', s')
    /\ m_chunk_dont_scan (mapping w') = m_chunk_dont_scan (mapping w)
    /\ m_page_shift (mapping w') = m_page_shift (mapping w)
    /\ (if will_evict (mapping w) i
        then s' = SizeT.add s (page_size (mapping w))
             /\ page_states w' !! i = Some PageState.Clean
             /\ memory w' !! i = None
        else s' = s /\ w' = w)
    /\ forall j, j <> i ->
                 page_states w' !! j = page_states w !! j
                 /\ memory w' !! j = memory w !! j.
Proof.
  unfold reclaim_step, will_evict, page_states.
  destruct (m_page_state (mapping w) !! i) as [ps |] eqn:Hps.
  - destruct (dont_scan (mapping w) i); cbn [negb andb].
    + exists w, s. repeat split; reflexivity.
    + destruct (reclaimable ps).
      * eexists _, _. split; [reflexivity |]. cbn. repeat split.
        -- apply list_lookup_insert_eq. now apply lookup_lt_Some in Hps.
        -- apply lookup_delete_eq.
        -- apply list_lookup_insert_ne. congruence.
        -- apply lookup_delete_ne. congruence.
      * exists w, s. repeat split; reflexivity.
  - exists w, s. repeat split; reflexivity.
Qed.

Lemma reclaim_loop (count : nat) :
  forall (idx : nat) (w : world) (s : Z),
    SizeT.in_range s ->
    exists w' s',
      for_loop idx count reclaim_step (w, s) = Ret (w', s')
      /\ m_chunk_dont_scan (mapping w') = m_chunk_dont_scan (mapping w)
      /\ m_page_shift (mapping w') = m_page_shift (mapping w)
      /\ s' = SizeT.wrap
                (s + Z.of_nat (length (filter (fun i => will_evict (mapping w) i = true)
                                              (seq idx count)))
                     * page_size (mapping w))
      /\ forall j,
           if decide ((idx <= j < idx + count)%nat /\ will_evict (mapping w) j = true)
           then page_states w' !! j = Some PageState.Clean /\ memory w' !! j = None
           else page_states w' !! j = page_states w !! j
                /\ memory w' !! j = memory w !! j.
Proof.
  induction count as [| count IH]; intros idx w s Hs.
  - exists w, s. cbn. repeat split; try reflexivity.
    + rewrite Z.add_0_r. symmetry. now apply SizeTFacts.wrap_small.
    + intros j. case_decide; [lia | split; reflexivity].
  - destruct (reclaim_step_cases idx w s) as (w1 & s1 & Hstep & Hch1 & Hsh1 & Hat & Hfr).
    assert (SizeT.in_range s1) as Hs1.
    { destruct (will_evict (mapping w) idx).
      - destruct Hat as (-> & _). apply SizeTFacts.wrap_range.
      - destruct Hat as (-> & _). exact Hs. }
    destruct (IH (Datatypes.S idx) w1 s1 Hs1) as (w' & s' & Hrest & Hch & Hsh & Hsav & Hst).
    assert (forall j, j <> idx -> will_evict (mapping w1) j = will_evict (mapping w) j)
      as Hsame.
    { intros j Hj. apply will_evict_ext; [apply (Hfr j Hj) | exact Hch1]. }
    exists w', s'. cbn [for_loop]. rewrite Hstep. cbn [mbind outcome_bind].
    split; [exact Hrest |]. split; [congruence |]. split; [congruence |]. split.
    + rewrite Hsav. cbn [seq]. rewrite filter_cons.
      rewrite (filter_ext_elem (fun i => will_evict (mapping w1) i = true)
                               (fun i => will_evict (mapping w) i = true)).
      2:{ intros x Hx. apply elem_of_seq in Hx. rewrite Hsame by lia. reflexivity. }
      assert (page_size (mapping w1) = page_size (mapping w)) as ->
        by (unfold page_size; now rewrite Hsh1).
      destruct (will_evict (mapping w) idx) eqn:Hev.
      * destruct Hat as (-> & _). rewrite decide_True by reflexivity.
        cbn [length]. unfold SizeT.add, SizeT.wrap.
        rewrite Z.add_mod_idemp_l by (pose proof SizeTFacts.modulus_pos; lia).
        f_equal. lia.
      * destruct Hat as (-> & _). rewrite decide_False by discriminate. reflexivity.
    + intros j. specialize (Hst j). destruct (decide (j = idx)) as [-> | Hne].
      * rewrite decide_False in Hst by lia. destruct Hst as (Hst1 & Hm1).
        rewrite Hst1, Hm1.
        destruct (will_evict (mapping w) idx) eqn:Hev.
        -- rewrite decide_True by (split; [lia | reflexivity]).
           destruct Hat as (_ & ? & ?). split; assumption.
        -- rewrite decide_False by (intros [_ ?]; discriminate).
           destruct Hat as (_ & ->). split; reflexivity.
      * rewrite Hsame in Hst by exact Hne.
        destruct (Hfr j Hne) as (Hfs & Hfm).
        repeat case_decide;
          try (rewrite <- ?Hfs, <- ?Hfm; exact Hst);
          exfalso;
          match goal with
          | Hp : _ /\ _, Hn : ~ _ |- _ =>
              destruct Hp; apply Hn; split; [lia | assumption]
          end.
Qed.

Lemma reclaimable_true (ps : Z) :
  reclaimable ps = true ->
  (ps = PageState.Clean \/ PageState.is_ ps PageState.UpToDate = true)
  /\ PageState.is_ ps PageState.Dirty = false
  /\ PageState.is_ ps PageState.Writable = false
  /\ PageState.is_ ps PageState.Touched = false.
Proof.
  unfold reclaimable. rewrite !PageStateFacts.is_not_negb.
  rewrite !andb_true_iff, orb_true_iff, Z.eqb_eq, !negb_true_iff. tauto.
Qed.

Lemma elem_of_evicted_pages (w : world) (progress_ptr : Z) (i : nat) :
  i ∈ evicted_pages w progress_ptr <->
  (Z.to_nat progress_ptr <= i
   < Z.to_nat progress_ptr + (length (page_states w) - Z.to_nat progress_ptr))%nat
  /\ will_evict (mapping w) i = true.
Proof.
  unfold evicted_pages. rewrite list_elem_of_filter, elem_of_seq. tauto.
Qed.

(** C5. A reclaim pass returns, and it evicts exactly the pages listed by
    [evicted_pages].  A page that is [Dirty] or [Writable] is not among
    them: its state, hence its [Dirty] and [Writable] flags, and its
    decrypted memory are as before.  Every evicted page was [Clean] or
    [UpToDate] and neither [Dirty] nor [Writable]; it ends [Clean] with
    its memory released.  The savings grow by one page size per evicted
    page and by nothing else. *)
Theorem reclaim_untouched_spares_dirty_and_writable
    (w : world) (progress_ptr accumulated_savings : Z) :
  SizeT.in_range accumulated_savings ->
  exists w' progress' savings',
    reclaim_untouched w progress_ptr accumulated_savings = Ret (w', progress', savings')
    /\ (forall i ps,
          page_states w !! i = Some ps ->
          PageState.is_ ps PageState.Dirty = true
          \/ PageState.is_ ps PageState.Writable = true ->
          (i ∉ evicted_pages w progress_ptr)
          /\ page_states w' !! i = Some ps
          /\ memory w' !! i = memory w !! i)
    /\ (forall i,
          i ∈ evicted_pages w progress_ptr ->
          exists ps,
            page_states w !! i = Some ps
            /\ (ps = PageState.Clean \/ PageState.is_ ps PageState.UpToDate = true)
            /\ PageState.is_ ps PageState.Dirty = false
            /\ PageState.is_ ps PageState.Writable = false
            /\ page_states w' !! i = Some PageState.Clean
            /\ memory w' !! i = None)
    /\ (forall i,
          (i ∉ evicted_pages w progress_ptr) ->
          page_states w' !! i = page_states w !! i
          /\ memory w' !! i = memory w !! i)
    /\ NoDup (evicted_pages w progress_ptr)
    /\ savings'
       = SizeT.wrap (accumulated_savings
                     + Z.of_nat (length (evicted_pages w progress_ptr))
                       * page_size (mapping w)).
Proof.
  intros Hs. unfold reclaim_untouched.
  destruct (reclaim_loop (length (page_states w) - Z.to_nat progress_ptr)
                         (Z.to_nat progress_ptr) w accumulated_savings Hs)
    as (w1 & s1 & Hloop & _ & _ & Hsav & Hst).
  rewrite Hloop. cbn [mbind outcome_bind fst snd].
  eexists _, _, _. split; [reflexivity |].
  assert (forall i, i ∉ evicted_pages w progress_ptr ->
                    page_states w1 !! i = page_states w !! i
                    /\ memory w1 !! i = memory w !! i) as Hkeep.
  { intros i Hi. specialize (Hst i). rewrite elem_of_evicted_pages in Hi.
    case_decide; [contradiction | exact Hst]. }
  split; [| split; [| split; [| split]]].
  - intros i ps Hps Hflag.
    assert (i ∉ evicted_pages w progress_ptr) as Hout.
    { rewrite elem_of_evicted_pages. intros (_ & Hev).
      unfold will_evict in Hev. fold (page_states w) in Hev. rewrite Hps in Hev.
      apply andb_true_iff in Hev as (_ & Hev).
      apply reclaimable_true in Hev as (_ & Hd & Hw & _).
      destruct Hflag; congruence. }
    split; [exact Hout |].
    destruct (Hkeep i Hout) as (Hk1 & Hk2). cbn. fold (page_states w1).
    rewrite Hk1, Hk2. auto.
  - intros i Hi. specialize (Hst i). apply elem_of_evicted_pages in Hi as Hi'.
    rewrite decide_True in Hst by exact Hi'.
    destruct Hi' as (_ & Hev). unfold will_evict in Hev. fold (page_states w) in Hev.
    destruct (page_states w !! i) as [ps |] eqn:Hps; [| discriminate].
    apply andb_true_iff in Hev as (_ & Hev).
    apply reclaimable_true in Hev as (Hcu & Hd & Hw & _).
    exists ps. cbn. fold (page_states w1). destruct Hst. auto 10.
  - intros i Hi. cbn. fold (page_states w1). apply Hkeep, Hi.
  - unfold evicted_pages. apply NoDup_filter, NoDup_seq.
  - exact Hsav.
Qed.

End Reclaim.

(** ** read_barrier and mark_pages_for_IV_check *)
Section ReadBarrier.
Context `{Collaborators}.

Lemma refresh_page_Ret (w w' : world) (i : nat) :
  refresh_page w i = Ret w' ->
  exists text,
    fresh_content (file w) (page_in_file (mapping w) i) = Some text
    /\ memory w' = <[i := text]> (memory w)
    /\ file w' = file w
    /\ page_states w' = page_states w
    /\ m_chunk_dont_scan (mapping w') = m_chunk_dont_scan (mapping w)
    /\ m_first_page (mapping w') = m_first_page (mapping w)
    /\ forall j, j <> i -> recorded_iv w' !! j = recorded_iv w !! j.
Proof.
  unfold refresh_page, fresh_content.
  destruct (fetch_page (file w) (page_in_file (mapping w) i)) as [[c v] |].
  - destruct (decrypt c v) as [text |]; [| discriminate].
    intros [= <-]. exists text. cbn. repeat split.
    intros j Hj. apply lookup_insert_ne. congruence.
  - intros [= <-]. exists blank_page. cbn. repeat split.
    intros j Hj. apply lookup_delete_ne. congruence.
Qed.

Lemma check_stale_iv_flags (w : world) (i : nat) (ps : Z) :
  let ps2 := check_stale_iv w i ps in
  PageState.is_ ps2 PageState.StaleIV = false
  /\ (PageState.is_ ps PageState.StaleIV = true ->
      (read_current_iv (file w) (page_in_file (mapping w) i) = recorded_iv w !! i ->
       PageState.is_ ps2 PageState.UpToDate = PageState.is_ ps PageState.UpToDate)
      /\ (read_current_iv (file w) (page_in_file (mapping w) i) <> recorded_iv w !! i ->
          PageState.is_ ps2 PageState.UpToDate = false)).
Proof.
  unfold check_stale_iv.
  destruct (PageState.is_ ps PageState.StaleIV) eqn:Hstale.
  - case_decide as Hiv; (split; [| intros _; split; intros Hiv'; try contradiction]);
      clear -Hstale; flag_cases.
  - split; [exact Hstale | discriminate].
Qed.

(** Steps 2 to 4 on page [i]: the page is made current, nothing else in
    the mapping changes, and the shared file is only read. *)
Lemma barrier_page_Ret (to_modify : bool) (i : nat) (w w' : world) :
  barrier_page to_modify i w = Ret w' ->
  made_current (file w) (page_in_file (mapping w) i) (page_view w i) (page_view w' i)
  /\ file w' = file w
  /\ m_first_page (mapping w') = m_first_page (mapping w)
  /\ forall j, j <> i -> page_view w' j = page_view w j.
Proof.
  unfold barrier_page.
  destruct (page_states w !! i) as [ps |] eqn:Hps; [| discriminate].
  pose proof (check_stale_iv_flags w i ps) as (Hclear & Hstale).
  set (ps2 := check_stale_iv w i ps) in *.
  destruct (PageState.is_not ps2 PageState.UpToDate) eqn:Hnot.
  - (* the page is decrypted afresh *)
    destruct (refresh_page w i) as [w3 | |] eqn:Hrefresh; try discriminate.
    apply refresh_page_Ret in Hrefresh
      as (text & Hfresh & Hmem & Hfile & Hstates & Hchunk & Hfirst & Hiv).
    cbn [mbind outcome_bind].
    assert (exists ps4,
              (if to_modify
               then REALM_ASSERT
                      (PageState.is_ (PageState.set ps2 PageState.UpToDate)
                                     PageState.UpToDate)
                      (Ret (PageState.set (PageState.set ps2 PageState.UpToDate)
                              (Z.lor PageState.Writable PageState.Touched)))
               else Ret (PageState.set ps2 PageState.UpToDate)) = Ret ps4
              /\ PageState.is_ ps4 PageState.StaleIV = false
              /\ PageState.is_ ps4 PageState.UpToDate = true) as (ps4 & -> & Hs4 & Hu4).
    { destruct to_modify.
      - eexists. split.
        + unfold REALM_ASSERT.
          replace (PageState.is_ (PageState.set ps2 PageState.UpToDate)
                                 PageState.UpToDate) with true
            by (clear; flag_cases).
          reflexivity.
        + clear - Hclear. split; flag_cases.
      - eexists. split; [reflexivity |]. clear - Hclear. split; flag_cases. }
    cbn [mbind outcome_bind]. intros [= <-].
    split; [| split; [exact Hfile | split; [exact Hfirst |]]].
    + exists ps, ps4. unfold page_view. cbn -[page_in_file].
      rewrite Hmem. split; [exact Hps |]. split.
      { fold (page_states w3). rewrite Hstates.
        apply list_lookup_insert_eq. now apply lookup_lt_Some in Hps. }
      split; [exact Hs4 |]. split; [exact Hu4 |].
      intros Hst. destruct (Hstale Hst) as (Hsame & Hdiff). split.
      * intros Heq Hup. specialize (Hsame Heq).
        rewrite PageStateFacts.is_not_negb, Hsame, Hup in Hnot. discriminate.
      * intros _. exists text. split; [exact Hfresh | apply lookup_insert_eq].
    + intros j Hj. unfold page_view. cbn.
      fold (page_states w3). rewrite Hstates, Hmem, (Hiv j Hj).
      rewrite list_lookup_insert_ne by congruence.
      rewrite lookup_insert_ne by congruence. reflexivity.
  - (* the page is up to date already *)
    cbn [mbind outcome_bind].
    assert (PageState.is_ ps2 PageState.UpToDate = true) as Hup2.
    { rewrite PageStateFacts.is_not_negb in Hnot.
      now apply negb_false_iff in Hnot. }
    assert (exists ps4,
              (if to_modify
               then REALM_ASSERT (PageState.is_ ps2 PageState.UpToDate)
                      (Ret (PageState.set ps2
                              (Z.lor PageState.Writable PageState.Touched)))
               else Ret ps2) = Ret ps4
              /\ PageState.is_ ps4 PageState.StaleIV = false
              /\ PageState.is_ ps4 PageState.UpToDate = true) as (ps4 & -> & Hs4 & Hu4).
    { destruct to_modify.
      - eexists. split; [unfold REALM_ASSERT; rewrite Hup2; reflexivity |].
        clear - Hclear Hup2. split; flag_cases.
      - eexists. split; [reflexivity |]. split; assumption. }
    cbn [mbind outcome_bind]. intros [= <-].
    split; [| split; [reflexivity | split; [reflexivity |]]].
    + exists ps, ps4. unfold page_view. cbn -[page_in_file].
      split; [exact Hps |]. split.
      { apply list_lookup_insert_eq. now apply lookup_lt_Some in Hps. }
      split; [exact Hs4 |]. split; [exact Hu4 |].
      intros Hst. destruct (Hstale Hst) as (Hsame & Hdiff). split.
      * intros _ _. reflexivity.
      * intros Hne. specialize (Hdiff Hne). congruence.
    + intros j Hj. unfold page_view. cbn.
      rewrite list_lookup_insert_ne by congruence. reflexivity.
Qed.



Lemma barrier_head_Ret (w wh : world) (addr size : Z) (h : Header_to_size)
    (to_modify : bool) (first last : nat) :
  barrier_head w addr size h to_modify = Ret (first, last, wh) ->
  barrier_page to_modify first w = Ret wh.
Proof.
  unfold barrier_head.
  destruct (get_local_index_of_address (mapping w) addr 0) as [fz | |];
    try discriminate.
  cbn [mbind outcome_bind].
  destruct (barrier_page to_modify (Z.to_nat fz) w) as [w1 | |] eqn:Hpage;
    try discriminate.
  cbn [mbind outcome_bind].
  match goal with
  | |- context [mbind _ ?c] => destruct c as [size' | |]; try discriminate
  end.
  cbn [mbind outcome_bind].
  match goal with
  | |- context [mbind _ ?c] => destruct c as [lz | |]; try discriminate
  end.
  cbn [mbind outcome_bind]. intros [= <- _ <-]. exact Hpage.
Qed.







End ReadBarrier.

(** ** extend_to *)
Section ExtendTo.
Context `{Collaborators}.

Lemma pages_covering_aligned (m : EncryptedFileMapping) (k : Z) :
  0 <= m_page_shift m -> pages_covering m (k * 2 ^ m_page_shift m) = k.
Proof.
  intros Hs. unfold pages_covering.
  assert (0 < 2 ^ m_page_shift m) as HP by (apply Z.pow_pos_nonneg; lia).
  replace (k * 2 ^ m_page_shift m + 2 ^ m_page_shift m - 1)
    with (2 ^ m_page_shift m - 1 + k * 2 ^ m_page_shift m) by lia.
  rewrite Z.div_add by lia. rewrite Z.div_small by lia. lia.
Qed.

(** C8. [extend_to] returns; the table then has the larger of its old
    length and the number of pages covering [new_size]; every page it had
    keeps its state, and every added page is [Clean].  Memory, recorded
    IVs and the shared file are not touched. *)
Theorem extend_to_keeps_pages_and_adds_clean (w : world) (offset new_size : Z) :
  exists w',
    extend_to w offset new_size = Ret w'
    /\ length (page_states w')
       = Nat.max (length (page_states w))
                 (Z.to_nat (pages_covering (mapping w) new_size))
    /\ (forall i ps, page_states w !! i = Some ps -> page_states w' !! i = Some ps)
    /\ (forall i, (length (page_states w) <= i < length (page_states w'))%nat ->
                  page_states w' !! i = Some PageState.Clean)
    /\ memory w' = memory w /\ recorded_iv w' = recorded_iv w /\ file w' = file w.
Proof.
  eexists. split; [reflexivity |]. unfold page_states. cbn.
  split; [| split; [| split; [| repeat split]]].
  - rewrite length_app, length_replicate. lia.
  - intros i ps Hps. rewrite lookup_app_l by (now apply lookup_lt_Some in Hps).
    exact Hps.
  - intros i. rewrite length_app, length_replicate. intros Hi.
    rewrite lookup_app_r by lia. apply lookup_replicate_2. lia.
Qed.

End ExtendTo.

(** ** The skip-bitmap invariant is kept by every call *)
Section SkipBitmap.
Context `{Collaborators}.

Lemma chunk_factor_nat : Z.to_nat page_to_chunk_factor = 1024%nat.
Proof. reflexivity. Qed.

Lemma chunk_of_bounds (i : nat) :
  (chunk_of i * 1024 <= i < chunk_of i * 1024 + 1024)%nat.
Proof.
  unfold chunk_of, SizeT.shr, page_to_chunk_shift.
  rewrite Z.shiftr_div_pow2 by lia. change (2 ^ 10) with 1024.
  pose proof (Z.div_mod (Z.of_nat i) 1024 ltac:(lia)) as Hdm.
  pose proof (Z.mod_pos_bound (Z.of_nat i) 1024 ltac:(lia)) as Hmod.
  assert (0 <= Z.of_nat i / 1024) by (apply Z.div_pos; lia).
  lia.
Qed.

Lemma chunk_pages_lookup (l : list Z) (i : nat) (ps : Z) :
  l !! i = Some ps -> ps ∈ chunk_pages l (chunk_of i).
Proof.
  intros Hps. pose proof (chunk_of_bounds i) as Hb.
  apply list_elem_of_lookup. exists (i - chunk_of i * 1024)%nat.
  unfold chunk_pages. rewrite chunk_factor_nat.
  rewrite lookup_take_lt by lia. rewrite lookup_drop.
  replace (chunk_of i * 1024 + (i - chunk_of i * 1024))%nat with i by lia.
  exact Hps.
Qed.

Lemma dont_scan_mark_settled (settled : Z -> bool) (m : EncryptedFileMapping)
    (i : nat) (ps : Z) :
  m_page_state m !! i = Some ps ->
  dont_scan (mark_settled_chunks settled m) i = true ->
  dont_scan m i = true \/ settled ps = true.
Proof.
  intros Hps. unfold dont_scan, mark_settled_chunks. cbn.
  rewrite list_lookup_imap.
  destruct (m_chunk_dont_scan m !! chunk_of i) as [b |]; cbn; [| discriminate].
  intros Hor. apply orb_true_iff in Hor as [-> | Hall]; [now left | right].
  rewrite forallb_forall in Hall. apply Hall.
  apply list_elem_of_In, chunk_pages_lookup, Hps.
Qed.

Lemma skip_flags_sound_settle (settled : Z -> bool) (m : EncryptedFileMapping) :
  (forall ps, settled ps = true ->
              PageState.is_not ps (Z.lor PageState.Dirty PageState.Writable) = true) ->
  skip_flags_sound m -> skip_flags_sound (mark_settled_chunks settled m).
Proof.
  intros Hsettled Hsound i ps Hps Hskip.
  destruct (dont_scan_mark_settled settled m i ps Hps Hskip) as [Hold | Hnew].
  - exact (Hsound i ps Hps Hold).
  - exact (Hsettled ps Hnew).
Qed.

Lemma skip_flags_sound_ext (m m' : EncryptedFileMapping) :
  m_chunk_dont_scan m' = m_chunk_dont_scan m ->
  (forall j ps', m_page_state m' !! j = Some ps' -> dont_scan m j = true ->
                 m_page_state m !! j = Some ps'
                 \/ PageState.is_not ps' (Z.lor PageState.Dirty PageState.Writable) = true) ->
  skip_flags_sound m -> skip_flags_sound m'.
Proof.
  intros Hch Hst Hsound j ps' Hps' Hskip.
  assert (dont_scan m j = true) as Hskip0 by (unfold dont_scan in *; now rewrite <- Hch).
  destruct (Hst j ps' Hps' Hskip0) as [Hsame | Hok]; [| exact Hok].
  exact (Hsound j ps' Hsame Hskip0).
Qed.

Lemma skip_flags_sound_rescan (i : nat) (ps : Z) (m : EncryptedFileMapping) :
  skip_flags_sound m -> skip_flags_sound (set_state_and_rescan i ps m).
Proof.
  intros Hsound j psj Hpsj Hskip.
  unfold dont_scan, set_state_and_rescan in *. cbn in *.
  destruct (decide (chunk_of i = chunk_of j)) as [Heq | Hne].
  - rewrite Heq, list_lookup_insert in Hskip. case_decide.
    + discriminate.
    + destruct (m_chunk_dont_scan m !! chunk_of j) eqn:Hl; cbn in Hskip;
        [| discriminate].
      apply lookup_lt_Some in Hl. lia.
  - rewrite list_lookup_insert_ne in Hskip by exact Hne.
    rewrite list_lookup_insert_ne in Hpsj by congruence.
    exact (Hsound j psj Hpsj Hskip).
Qed.

Lemma for_loop_invariant {S : Type} (P : S -> Prop) (body : nat -> S -> outcome S) :
  (forall i s s', body i s = Ret s' -> P s -> P s') ->
  forall count idx s s', for_loop idx count body s = Ret s' -> P s -> P s'.
Proof.
  intros Hbody. induction count as [| count IH]; intros idx s s' Hloop Hs.
  - injection Hloop as <-. exact Hs.
  - cbn [for_loop] in Hloop. destruct (body idx s) as [s1 | |] eqn:Hstep;
      try discriminate.
    cbn [mbind outcome_bind] in Hloop.
    exact (IH _ _ _ Hloop (Hbody _ _ _ Hstep Hs)).
Qed.

Lemma flush_keeps_skip_flags_sound (w w' : world) :
  flush w = Ret w' -> skip_flags_sound (mapping w) -> skip_flags_sound (mapping w').
Proof.
  unfold flush.
  destruct (flush_loop (length (page_states w)) 0 w) as (w1 & Hloop & _ & Hch & Hst).
  rewrite Hloop. cbn [mbind outcome_bind]. intros [= <-] Hsound. cbn.
  apply skip_flags_sound_settle; [auto |].
  apply (skip_flags_sound_ext (mapping w)); [exact Hch | | exact Hsound].
  intros j ps' Hps' Hskip. left. fold (page_states w1) in Hps'.
  rewrite Hst in Hps'. fold (page_states w).
  destruct (page_states w !! j) as [ps |]; [| now case_decide].
  case_decide; [| exact Hps'].
  cbn in Hps'. unfold flushed_state in Hps'. rewrite Hskip in Hps'. exact Hps'.
Qed.

Lemma mark_dirty_keeps_skip_flags_sound (i : nat) (w w' : world) :
  mark_dirty i w = Ret w' -> skip_flags_sound (mapping w) -> skip_flags_sound (mapping w').
Proof.
  unfold mark_dirty, REALM_ASSERT.
  destruct (m_page_state (mapping w) !! i) as [ps |]; [| discriminate].
  destruct (PageState.is_ ps PageState.Writable); [| discriminate].
  intros [= <-] Hsound. cbn. now apply skip_flags_sound_rescan.
Qed.

Lemma barrier_page_keeps_skip_flags_sound (to_modify : bool) (i : nat) (w w' : world) :
  barrier_page to_modify i w = Ret w' ->
  skip_flags_sound (mapping w) -> skip_flags_sound (mapping w').
Proof.
  unfold barrier_page.
  destruct (page_states w !! i) as [ps |]; [| discriminate].
  intros Hret Hsound.
  assert (exists w3 ps4,
            w' = with_mapping (set_state_and_rescan i ps4 (mapping w3)) w3
            /\ page_states w3 = page_states w
            /\ m_chunk_dont_scan (mapping w3) = m_chunk_dont_scan (mapping w))
    as (w3 & ps4 & -> & Hst & Hch).
  { destruct (PageState.is_not _ PageState.UpToDate).
    - destruct (refresh_page w i) as [w3 | |] eqn:Hrefresh; try discriminate.
      apply refresh_page_Ret in Hrefresh as (_ & _ & _ & _ & Hst & Hch & _).
      cbn [mbind outcome_bind] in Hret.
      match type of Hret with
      | mbind _ ?c = _ => destruct c as [ps4 | |]; try discriminate
      end.
      cbn [mbind outcome_bind] in Hret. injection Hret as <-. eauto.
    - cbn [mbind outcome_bind] in Hret.
      match type of Hret with
      | mbind _ ?c = _ => destruct c as [ps4 | |]; try discriminate
      end.
      cbn [mbind outcome_bind] in Hret. injection Hret as <-. eauto. }
  cbn. apply skip_flags_sound_rescan.
  apply (skip_flags_sound_ext (mapping w)); [exact Hch | | exact Hsound].
  intros j ps' Hps' _. left. fold (page_states w3) in Hps'. now rewrite Hst in Hps'.
Qed.

Lemma reclaim_step_keeps_skip_flags_sound (i : nat) (st st' : world * Z) :
  reclaim_step i st = Ret st' ->
  skip_flags_sound (mapping (fst st)) -> skip_flags_sound (mapping (fst st')).
Proof.
  destruct st as [w s]. unfold reclaim_step.
  destruct (page_states w !! i) as [ps |] eqn:Hps; [| now intros [= <-]].
  destruct (dont_scan (mapping w) i); [now intros [= <-] |].
  destruct (reclaimable ps); [| now intros [= <-]].
  intros [= <-] Hsound. cbn in *.
  apply (skip_flags_sound_ext (mapping w)); [reflexivity | | exact Hsound].
  intros j ps' Hps' _. cbn in Hps'.
  rewrite list_lookup_insert in Hps'. case_decide.
  - injection Hps' as <-. right. reflexivity.
  - left. exact Hps'.
Qed.

(** Every call that returns keeps the skip-bitmap sound. *)
Lemma run_keeps_skip_flags_sound (c : call) (w w' : world) :
  run c w = Ret w' -> skip_flags_sound (mapping w) -> skip_flags_sound (mapping w').
Proof.
  destruct c as [| addr size | addr size h to_modify | | p s | offset new_size | f];
    cbn [run].
  - apply flush_keeps_skip_flags_sound.
  - unfold write_barrier. destruct (size =? 0); [now intros [= <-] |].
    destruct (get_local_index_of_address _ addr 0) as [first | |]; try discriminate.
    cbn [mbind outcome_bind].
    destruct (get_local_index_of_address _ addr (size - 1)) as [last | |];
      try discriminate.
    cbn [mbind outcome_bind].
    apply (for_loop_invariant (fun w => skip_flags_sound (mapping w))).
    apply mark_dirty_keeps_skip_flags_sound.
  - unfold read_barrier, REALM_ASSERT.
    destruct (negb to_modify || _); [| discriminate].
    destruct ((size =? 0) && _); [now intros [= <-] |].
    destruct (barrier_head w addr size h to_modify) as [[[first last] w1] | |] eqn:Hhead;
      try discriminate.
    cbn [mbind outcome_bind]. intros Hloop Hsound.
    apply barrier_head_Ret in Hhead.
    apply (barrier_page_keeps_skip_flags_sound _ _ _ _ Hhead) in Hsound.
    revert Hloop Hsound.
    apply (for_loop_invariant (fun w => skip_flags_sound (mapping w))).
    apply barrier_page_keeps_skip_flags_sound.
  - intros [= <-] Hsound. cbn.
    apply (skip_flags_sound_ext (mapping w)); [reflexivity | | exact Hsound].
    intros j ps' Hps' Hskip. cbn in Hps'. rewrite list_lookup_fmap in Hps'.
    destruct (page_states w !! j) as [ps |] eqn:Hps; [| discriminate].
    injection Hps' as <-. right.
    pose proof (Hsound j ps Hps Hskip) as Hok. revert Hok. clear.
    unfold mark_page_for_IV_check.
    destruct (PageState.is_ ps _); [| auto]. intros. flag_cases.
  - unfold reclaim_untouched.
    destruct (for_loop _ _ reclaim_step (w, s)) as [st | |] eqn:Hloop; try discriminate.
    cbn [mbind outcome_bind fst]. intros [= <-] Hsound. cbn.
    apply skip_flags_sound_settle.
    + intros ps Hps. apply Z.eqb_eq in Hps as ->. reflexivity.
    + revert Hloop Hsound.
      apply (for_loop_invariant
               (fun st : world * Z => skip_flags_sound (mapping (fst st)))).
      apply reclaim_step_keeps_skip_flags_sound.
  - intros [= <-] Hsound j ps' Hps' Hskip. cbn in *.
    unfold dont_scan in Hskip. cbn in Hskip.
    destruct (decide (chunk_of j < length (m_chunk_dont_scan (mapping w)))%nat)
      as [Hin | Hout].
    + rewrite lookup_app_l in Hskip by exact Hin.
      destruct (decide (j < length (m_page_state (mapping w)))%nat) as [Hj | Hj].
      * rewrite lookup_app_l in Hps' by exact Hj. exact (Hsound j ps' Hps' Hskip).
      * rewrite lookup_app_r in Hps' by lia.
        apply lookup_replicate_1 in Hps' as (-> & _). reflexivity.
    + rewrite lookup_app_r in Hskip by lia.
      destruct (replicate _ false !! _) as [b |] eqn:Hb; cbn in Hskip;
        [| discriminate].
      apply lookup_replicate_1 in Hb as (-> & _). discriminate.
  - intros [= <-] Hsound. exact Hsound.
Qed.

(** So the invariant holds in every world reached from one where it
    holds, in particular from a freshly created mapping. *)
Lemma reaches_keeps_skip_flags_sound (w w' : world) :
  reaches w w' -> skip_flags_sound (mapping w) -> skip_flags_sound (mapping w').
Proof.
  induction 1 as [| c w1 w2 _ IH Hrun]; intros Hsound; [exact Hsound |].
  exact (run_keeps_skip_flags_sound c w1 w2 Hrun (IH Hsound)).
Qed.

End SkipBitmap.

(** ** A touched page is up to date, in every reachable world *)
Section TouchedPages.
Context `{Collaborators}.

Lemma mark_dirty_keeps_touched (i : nat) (w w' : world) :
  mark_dirty i w = Ret w' ->
  touched_pages_up_to_date (mapping w) -> touched_pages_up_to_date (mapping w').
Proof.
  intros Hret Hinv j ps' Hps' Ht. fold (page_states w') in Hps'.
  pose proof (mark_dirty_cases i w) as Hcases.
  destruct (page_states w !! i) as [ps |] eqn:Hps; [| congruence].
  destruct (PageState.is_ ps PageState.Writable); [| congruence].
  destruct Hcases as (w'' & Hret' & _ & _ & _ & Hst).
  rewrite Hret in Hret'. injection Hret' as <-.
  rewrite Hst in Hps'. case_decide as Hj.
  - subst j. injection Hps' as <-. pose proof (Hinv i ps Hps) as Hold.
    revert Hold Ht. clear. intros. flag_cases.
  - exact (Hinv j ps' Hps' Ht).
Qed.

Lemma barrier_page_keeps_touched (to_modify : bool) (i : nat) (w w' : world) :
  barrier_page to_modify i w = Ret w' ->
  touched_pages_up_to_date (mapping w) -> touched_pages_up_to_date (mapping w').
Proof.
  intros Hret Hinv j ps' Hps' Ht. fold (page_states w') in Hps'.
  apply barrier_page_Ret in Hret as (Hcur & _ & _ & Hframe).
  destruct (decide (j = i)) as [-> | Hne].
  - destruct Hcur as (ps & ps2 & _ & Hps2 & _ & Hup & _).
    unfold page_view in Hps2. cbn in Hps2. congruence.
  - specialize (Hframe j Hne). unfold page_view in Hframe.
    injection Hframe as Hst _ _. rewrite Hst in Hps'. exact (Hinv j ps' Hps' Ht).
Qed.

Lemma reclaim_step_keeps_touched (i : nat) (st st' : world * Z) :
  reclaim_step i st = Ret st' ->
  touched_pages_up_to_date (mapping (fst st)) ->
  touched_pages_up_to_date (mapping (fst st')).
Proof.
  destruct st as [w s]. intros Hret Hinv j ps' Hps' Ht. cbn [fst] in *.
  destruct (reclaim_step_cases i w s) as (w1 & s1 & Hret1 & _ & _ & Hat & Hframe).
  rewrite Hret in Hret1. injection Hret1 as ->. cbn [fst] in *.
  fold (page_states w1) in Hps'.
  destruct (decide (j = i)) as [-> | Hne].
  - destruct (will_evict (mapping w) i).
    + destruct Hat as (_ & Hclean & _). rewrite Hclean in Hps'.
      injection Hps' as <-. discriminate.
    + destruct Hat as (_ & ->). exact (Hinv i ps' Hps' Ht).
  - destruct (Hframe j Hne) as (Hst & _). rewrite Hst in Hps'.
    exact (Hinv j ps' Hps' Ht).
Qed.

Lemma run_keeps_touched (c : call) (w w' : world) :
  run c w = Ret w' ->
  touched_pages_up_to_date (mapping w) -> touched_pages_up_to_date (mapping w').
Proof.
  destruct c as [| addr size | addr size h to_modify | | p s | offset new_size | f];
    cbn [run].
  - intros Hret Hinv j ps' Hps' Ht. fold (page_states w') in Hps'.
    destruct (flush_Ret w) as (w'' & Hret' & _ & Hst).
    rewrite Hret in Hret'. injection Hret' as <-. rewrite Hst in Hps'.
    destruct (page_states w !! j) as [ps |] eqn:Hps; [| discriminate].
    injection Hps' as <-. pose proof (Hinv j ps Hps) as Hold.
    revert Hold Ht. clear. unfold flushed_state.
    destruct (dont_scan _ _); [auto |].
    destruct (PageState.is_not ps PageState.Dirty); [auto |]. intros. flag_cases.
  - unfold write_barrier. destruct (size =? 0); [now intros [= <-] |].
    destruct (get_local_index_of_address _ addr 0) as [first | |]; try discriminate.
    cbn [mbind outcome_bind].
    destruct (get_local_index_of_address _ addr (size - 1)) as [last | |];
      try discriminate.
    cbn [mbind outcome_bind].
    apply (for_loop_invariant (fun w => touched_pages_up_to_date (mapping w))).
    apply mark_dirty_keeps_touched.
  - unfold read_barrier, REALM_ASSERT.
    destruct (negb to_modify || _); [| discriminate].
    destruct ((size =? 0) && _); [now intros [= <-] |].
    destruct (barrier_head w addr size h to_modify) as [[[first last] w1] | |] eqn:Hhead;
      try discriminate.
    cbn [mbind outcome_bind]. intros Hloop Hinv.
    apply barrier_head_Ret in Hhead.
    apply (barrier_page_keeps_touched _ _ _ _ Hhead) in Hinv.
    revert Hloop Hinv.
    apply (for_loop_invariant (fun w => touched_pages_up_to_date (mapping w))).
    apply barrier_page_keeps_touched.
  - intros [= <-] Hinv j ps' Hps' Ht. cbn in Hps'. rewrite list_lookup_fmap in Hps'.
    destruct (page_states w !! j) as [ps |] eqn:Hps; [| discriminate].
    injection Hps' as <-. pose proof (Hinv j ps Hps) as Hold.
    revert Hold Ht. clear. unfold mark_page_for_IV_check.
    destruct (PageState.is_ ps (Z.lor _ _)); [| auto]. intros. flag_cases.
  - unfold reclaim_untouched.
    destruct (for_loop _ _ reclaim_step (w, s)) as [st | |] eqn:Hloop; try discriminate.
    cbn [mbind outcome_bind fst]. intros [= <-] Hinv. cbn.
    change (touched_pages_up_to_date (mapping (fst st))).
    revert Hloop Hinv.
    apply (for_loop_invariant
             (fun st : world * Z => touched_pages_up_to_date (mapping (fst st)))).
    apply reclaim_step_keeps_touched.
  - intros [= <-] Hinv j ps' Hps' Ht. cbn in Hps'.
    destruct (decide (j < length (m_page_state (mapping w)))%nat) as [Hj | Hj].
    + rewrite lookup_app_l in Hps' by exact Hj. exact (Hinv j ps' Hps' Ht).
    + rewrite lookup_app_r in Hps' by lia.
      apply lookup_replicate_1 in Hps' as (-> & _). discriminate.
  - intros [= <-] Hinv. exact Hinv.
Qed.

Lemma reaches_keeps_touched (w w' : world) :
  reaches w w' ->
  touched_pages_up_to_date (mapping w) -> touched_pages_up_to_date (mapping w').
Proof.
  induction 1 as [| c w1 w2 _ IH Hrun]; intros Hinv; [exact Hinv |].
  exact (run_keeps_touched c w1 w2 Hrun (IH Hinv)).
Qed.

(** Both invariants hold for a table that is all [Clean], hence in every
    world reached from a freshly created mapping. *)
Lemma all_clean_invariants (m : EncryptedFileMapping) :
  all_clean m -> skip_flags_sound m /\ touched_pages_up_to_date m.
Proof.
  intros Hclean. split.
  - intros i ps Hps _. rewrite (Hclean i ps Hps). reflexivity.
  - intros i ps Hps. rewrite (Hclean i ps Hps). discriminate.
Qed.

Lemma reachable_invariants (w w' : world) :
  all_clean (mapping w) -> reaches w w' ->
  skip_flags_sound (mapping w') /\ touched_pages_up_to_date (mapping w').
Proof.
  intros Hclean Hreach. destruct (all_clean_invariants _ Hclean) as (Hs & Ht). split.
  - exact (reaches_keeps_skip_flags_sound w w' Hreach Hs).
  - exact (reaches_keeps_touched w w' Hreach Ht).
Qed.

End TouchedPages.

(** ** Scenarios on the concrete instance *)

Lemma toy_mapping_wf (states : list Z) : wf_mapping (Toy.toy_mapping states).
Proof. split; range_literal. Qed.

Lemma toy_skip_flags_sound (states : list Z) :
  skip_flags_sound (Toy.toy_mapping states).
Proof.
  intros i ps _. unfold dont_scan. cbn.
  destruct (chunk_of i) as [| c]; cbn; discriminate.
Qed.

(** Scenario A: of three writable pages only the dirty one loses [Dirty]
    and [Writable]. *)
Lemma flush_clears_dirty_pages_only_witness :
  exists w',
    flush Toy.three_writable_one_dirty = Ret w'
    /\ page_states w' !! 0%nat = Some 11
    /\ page_states w' !! 1%nat = Some 3
    /\ page_states w' !! 2%nat = Some 11.
Proof.
  destruct (flush_clears_dirty_pages_only Toy.three_writable_one_dirty
              (toy_skip_flags_sound _)) as (w' & Hflush & _ & Hpages).
  exists w'. split; [exact Hflush |].
  destruct (Hpages 0%nat 11 eq_refl) as (_ & Hp0).
  destruct (Hpages 1%nat 27 eq_refl) as (Hp1 & _).
  destruct (Hpages 2%nat 11 eq_refl) as (_ & Hp2).
  destruct (Hp1 eq_refl) as (ps' & Hl1 & -> & _).
  split; [exact (Hp0 eq_refl) |]. split; [exact Hl1 |]. exact (Hp2 eq_refl).
Defined.

(** Marking the middle page of three writable ones dirty; and the fatal
    case, where that page was never opened for writing. *)
Lemma write_barrier_marks_overlapping_pages_dirty_witness :
  (exists w',
     write_barrier Toy.three_writable 69632 4096 = Ret w'
     /\ page_states w' !! 0%nat = Some 11
     /\ page_states w' !! 1%nat = Some 27
     /\ page_states w' !! 2%nat = Some 11
     /\ file w' = Toy.toy_file)
  /\ write_barrier Toy.second_not_writable 69632 4096 = Fatal.
Proof.
  split.
  - destruct (write_barrier_marks_overlapping_pages_dirty Toy.three_writable 69632 4096)
      as [Hok _].
    + apply toy_mapping_wf.
    + range_literal.
    + cbn. lia.
    + lia.
    + unfold SizeT.modulus, SizeT.bits. cbn. lia.
    + destruct Hok as (w' & Hret & _ & _ & Hfile & Hst).
      { intros i Hi. unfold page_overlaps in Hi. cbn in Hi.
        assert (i = 1%nat) as -> by lia. exists 11. split; reflexivity. }
      exists w'. split; [exact Hret |].
      destruct (Hst 0%nat 11 eq_refl) as (_ & H0).
      destruct (Hst 1%nat 11 eq_refl) as (H1 & _).
      destruct (Hst 2%nat 11 eq_refl) as (_ & H2).
      split; [apply H0; unfold page_overlaps; cbn; lia |].
      split; [apply H1; unfold page_overlaps; cbn; lia |].
      split; [apply H2; unfold page_overlaps; cbn; lia |].
      exact Hfile.
  - destruct (write_barrier_marks_overlapping_pages_dirty Toy.second_not_writable
                69632 4096) as [_ Hfatal].
    + apply toy_mapping_wf.
    + range_literal.
    + cbn. lia.
    + lia.
    + unfold SizeT.modulus, SizeT.bits. cbn. lia.
    + apply Hfatal. exists 1%nat, 2. split; [unfold page_overlaps; cbn; lia |].
      split; reflexivity.
Defined.

(** A pass over two cached pages, a dirty page and a clean page: the dirty
    page keeps state and memory, and the savings are three pages. *)
Lemma reclaim_untouched_spares_dirty_and_writable_witness :
  exists w' progress' savings',
    reclaim_untouched Toy.two_cached_one_dirty 0 0 = Ret (w', progress', savings')
    /\ page_states w' !! 2%nat = Some 27
    /\ memory w' !! 2%nat = Some 555
    /\ savings' = 3 * 4096.
Proof.
  destruct (reclaim_untouched_spares_dirty_and_writable Toy.two_cached_one_dirty 0 0)
    as (w' & progress' & savings' & Hret & Hkeep & _ & _ & _ & Hsav).
  - range_literal.
  - exists w', progress', savings'. split; [exact Hret |].
    destruct (Hkeep 2%nat 27 eq_refl (or_introl eq_refl)) as (_ & Hstate & Hmem).
    split; [exact Hstate |]. split; [exact Hmem |].
    rewrite Hsav. vm_compute. reflexivity.
Defined.


(** Scenario D: a table of two pages grows to five. *)
Example extend_to_two_to_five :
  exists w',
    extend_to (with_mapping (Toy.toy_mapping [11; 2]) Toy.two_cached) 0 (5 * 4096)
      = Ret w'
    /\ page_states w' = [11; 2; 0; 0; 0].
Proof. eexists. split; reflexivity. Qed.

(** Scenario A, end to end: a barrier for writing over three fresh pages,
    a write barrier on the middle page, then a flush; the page states
    after each call. *)
Example scenario_A :
  (w1 ← read_barrier (Toy.fresh 3) 65536 12288 None true;
   w2 ← write_barrier w1 69632 4096;
   w3 ← flush w2;
   Ret (page_states w1, page_states w2, page_states w3))
  = Ret ([11; 11; 11], [11; 27; 11], [11; 3; 11]).
Proof. vm_compute. reflexivity. Qed.

(** Scenario B: after another process has rewritten a cached page, marking
    and a barrier on that page decrypt exactly one page, and the plaintext
    differs from before. *)
Example scenario_B :
  (w1 ← mark_pages_for_IV_check Toy.two_cached;
   w2 ← read_barrier (with_file Toy.toy_file_rewritten w1) 69632 4096 None false;
   Ret (m_num_decrypted (mapping w2) - m_num_decrypted (mapping Toy.two_cached),
        memory Toy.two_cached !! 1%nat, memory w2 !! 1%nat))
  = Ret (1, Some 101, Some 777).
Proof. vm_compute. reflexivity. Qed.

(** A block whose IV does not fit its ciphertext makes the barrier throw. *)
Example read_barrier_throws_on_bad_tag :
  read_barrier (with_file (<[5 := (1, 2)]> Toy.toy_file) (Toy.fresh 3))
               65536 4096 None false
  = Raise DecryptionFailed.
Proof. vm_compute. reflexivity. Qed.

(** Scenario C: one full chunk of clean pages, then a dirty page. *)
Example scenario_C :
  (r ← reclaim_untouched Toy.clean_chunk_then_dirty 0 0;
   Ret (snd r, m_chunk_dont_scan (mapping (fst (fst r))),
        page_states (fst (fst r)) !! 1024%nat))
  = Ret (1024 * 4096, [true; false], Some 18).
Proof. vm_compute. reflexivity. Qed.

(** Dynamic extension: the barrier is asked for the 8 bytes of a header,
    the header announces a record of two pages, and both pages are made
    current. *)
Example read_barrier_extends_to_header_size :
  (w ← read_barrier (Toy.fresh 3) 65536 8 (Some (fun _ _ => 8192)) false;
   Ret (page_states w, m_num_decrypted (mapping w)))
  = Ret ([2; 2; 0], 2).
Proof. vm_compute. reflexivity. Qed.

(** * Further properties of the inline members *)

(** ** Debug printing *)

Lemma append_cons (ch : Ascii.ascii) (a b : string) :
  String ch a +:+ b = String ch (a +:+ b).
Proof. reflexivity. Qed.

Lemma append_nil_r (a : string) : a +:+ "" = a.
Proof.
  induction a as [| ch a IH]; [reflexivity |]. now rewrite append_cons, IH.
Qed.

Lemma append_assoc (a b c : string) : (a +:+ b) +:+ c = a +:+ (b +:+ c).
Proof.
  induction a as [| ch a IH]; [reflexivity |]. now rewrite !append_cons, IH.
Qed.

Lemma append_nonempty_r (a b : string) : b <> "" -> a +:+ b <> "".
Proof. destruct a; [auto | rewrite append_cons; discriminate]. Qed.

Lemma state_name_nonempty (s : Z) : state_name s <> "".
Proof.
  unfold state_name. destruct (s =? PageState.Clean); [discriminate |].
  apply append_nonempty_r. discriminate.
Qed.

Lemma state_name_cases (s : Z) :
  s <> PageState.Clean ->
  state_name s
  = "{" +:+ (if PageState.is_ s PageState.Touched then "Touched" else "")
        +:+ (if PageState.is_ s PageState.UpToDate then "UpToDate" else "")
        +:+ (if PageState.is_ s PageState.StaleIV then "StaleIV" else "")
        +:+ (if PageState.is_ s PageState.Writable then "Writable" else "")
        +:+ (if PageState.is_ s PageState.Dirty then "Dirty" else "") +:+ "}".
Proof.
  intros Hne. unfold state_name, PageState.is_.
  destruct (Z.eqb_spec s PageState.Clean) as [? | _]; [contradiction |].
  destruct (Z.land s PageState.Touched =? 0),
           (Z.land s PageState.UpToDate =? 0),
           (Z.land s PageState.StaleIV =? 0),
           (Z.land s PageState.Writable =? 0),
           (Z.land s PageState.Dirty =? 0); reflexivity.
Qed.

(** X15. Only the state without any flag prints as ["Clean"]; a non-zero
    state in which none of the five flags is set prints as empty
    braces. *)
Theorem state_name_Clean_iff (s : Z) :
  (state_name s = "Clean" <-> s = PageState.Clean)
  /\ (s <> PageState.Clean -> Z.land s 31 = 0 -> state_name s = "{}").
Proof.
  split.
  - split.
    + intros Hname. destruct (Z.eq_dec s PageState.Clean) as [-> | Hne];
        [reflexivity |].
      rewrite (state_name_cases s Hne) in Hname.
      destruct (PageState.is_ s PageState.Touched),
               (PageState.is_ s PageState.UpToDate),
               (PageState.is_ s PageState.StaleIV),
               (PageState.is_ s PageState.Writable),
               (PageState.is_ s PageState.Dirty); discriminate.
    + intros ->. reflexivity.
  - intros Hne Hlow. rewrite (state_name_cases s Hne).
    assert (forall k, 0 <= k < 5 -> Z.testbit s k = false) as Hbits.
    { intros k Hk.
      assert (Z.testbit (Z.land s 31) k = false) as Hb by (rewrite Hlow; apply Z.bits_0).
      rewrite Z.land_spec in Hb. change 31 with (Z.ones 5) in Hb.
      rewrite Z.ones_spec_low, andb_true_r in Hb by lia. exact Hb. }
    rewrite PageStateFacts.is_Touched, PageStateFacts.is_UpToDate,
      PageStateFacts.is_StaleIV, PageStateFacts.is_Writable, PageStateFacts.is_Dirty.
    rewrite !Hbits by lia. reflexivity.
Qed.

Lemma state_name_distinct_below_32 :
  forallb (fun s =>
             forallb (fun t => implb (String.eqb (state_name s) (state_name t)) (s =? t))
                     (seqZ 0 32))
          (seqZ 0 32) = true.
Proof. vm_compute. reflexivity. Qed.

(** X16. On the states made of the five flags the debug name determines
    the state: two such states with the same name are equal. *)
Theorem state_name_injective (s t : Z) :
  0 <= s < 32 -> 0 <= t < 32 -> state_name s = state_name t -> s = t.
Proof.
  intros Hs Ht Hname.
  pose proof state_name_distinct_below_32 as Hall.
  rewrite forallb_forall in Hall.
  specialize (Hall s). rewrite <- list_elem_of_In, elem_of_seqZ in Hall.
  specialize (Hall ltac:(lia)). rewrite forallb_forall in Hall.
  specialize (Hall t). rewrite <- list_elem_of_In, elem_of_seqZ in Hall.
  specialize (Hall ltac:(lia)).
  rewrite Hname, String.eqb_refl in Hall. cbn in Hall.
  now apply Z.eqb_eq.
Qed.

Lemma state_name_injective_witness :
  Z.lor PageState.Touched PageState.UpToDate = 3.
Proof.
  apply (state_name_injective (Z.lor PageState.Touched PageState.UpToDate) 3).
  - vm_compute. split; [discriminate | reflexivity].
  - lia.
  - reflexivity.
Defined.

Lemma fold_append_state_name (l : list Z) :
  forall acc, acc <> "" ->
  fold_left append_state_name l acc
  = acc +:+ String.concat "" (map (fun s => ", " +:+ state_name s) l).
Proof.
  induction l as [| s l IH]; intros acc Hacc; cbn [fold_left map].
  - cbn [String.concat]. now rewrite append_nil_r.
  - rewrite IH by (unfold append_state_name; apply append_nonempty_r, state_name_nonempty).
    unfold append_state_name.
    destruct (String.eqb_spec acc "") as [-> | _]; [contradiction |].
    rewrite !append_assoc. f_equal.
    destruct l as [| s' l]; cbn [map String.concat].
    + now rewrite append_nil_r.
    + rewrite !append_assoc. reflexivity.
Qed.

Lemma concat_separator (x : string) (xs : list string) :
  String.concat ", " (x :: xs)
  = x +:+ String.concat "" (map (fun y => ", " +:+ y) xs).
Proof.
  revert x. induction xs as [| y ys IH]; intros x.
  - cbn [map String.concat]. now rewrite append_nil_r.
  - change (String.concat ", " (x :: y :: ys))
      with (x +:+ ", " +:+ String.concat ", " (y :: ys)).
    rewrite IH. cbn [map].
    destruct ys as [| z zs]; cbn [map String.concat].
    + now rewrite !append_nil_r.
    + rewrite !append_assoc. reflexivity.
Qed.

(** X17. The loop of [print_debug] joins the names of the pages with a
    comma and a space: one separator between two names, none before the
    first or after the last, and the empty text for an empty table. *)
Theorem debug_page_states_joins_names (l : list Z) :
  debug_page_states l = String.concat ", " (map state_name l).
Proof.
  unfold debug_page_states. destruct l as [| s l]; [reflexivity |].
  cbn [fold_left map]. rewrite concat_separator, map_map.
  change (append_state_name "" s) with (state_name s).
  apply fold_append_state_name, state_name_nonempty.
Qed.

(** ** The page-state helpers, for arbitrary masks *)

(** X10. After [clear(ps, p)] none of the flags of [p] is set; after
    [set(ps, p)] some flag of [p] is set, unless [p] is the empty mask. *)
Theorem clear_then_is_not_and_set_then_is (ps p : Z) :
  PageState.is_not (PageState.clear ps p) p = true
  /\ PageState.is_ (PageState.clear ps p) p = false
  /\ PageState.is_ (PageState.set ps p) p = negb (p =? 0)
  /\ PageState.is_not (PageState.set ps p) p = (p =? 0).
Proof.
  assert (Z.land (PageState.clear ps p) p = 0) as Hc.
  { unfold PageState.clear. rewrite <- Z.land_assoc, (Z.land_comm (Z.lnot p)).
    rewrite Z.land_lnot_diag. apply Z.land_0_r. }
  assert (Z.land (PageState.set ps p) p = p) as Hs.
  { unfold PageState.set. rewrite Z.land_lor_distr_l, Z.land_diag.
    apply Z.bits_inj'. intros n _.
    rewrite Z.lor_spec, Z.land_spec. destruct (Z.testbit ps n), (Z.testbit p n); reflexivity. }
  unfold PageState.is_not, PageState.is_. rewrite Hc, Hs. repeat split.
Qed.

(** X11. [clear] and [set] with mask [p] leave every test on a mask [q]
    that shares no flag with [p] as it was. *)
Theorem flags_outside_the_mask_are_untouched (ps p q : Z) :
  Z.land p q = 0 ->
  PageState.is_ (PageState.clear ps p) q = PageState.is_ ps q
  /\ PageState.is_ (PageState.set ps p) q = PageState.is_ ps q
  /\ PageState.is_not (PageState.clear ps p) q = PageState.is_not ps q
  /\ PageState.is_not (PageState.set ps p) q = PageState.is_not ps q.
Proof.
  intros Hdisj.
  assert (forall n, 0 <= n -> Z.testbit p n && Z.testbit q n = false) as Hbits.
  { intros n _. rewrite <- Z.land_spec, Hdisj. apply Z.bits_0. }
  assert (Z.land (PageState.clear ps p) q = Z.land ps q) as Hc.
  { unfold PageState.clear. apply Z.bits_inj'. intros n Hn.
    rewrite !Z.land_spec, Z.lnot_spec by exact Hn. specialize (Hbits n Hn).
    destruct (Z.testbit ps n), (Z.testbit p n), (Z.testbit q n);
      cbn in *; congruence. }
  assert (Z.land (PageState.set ps p) q = Z.land ps q) as Hs.
  { unfold PageState.set. rewrite Z.land_lor_distr_l, Hdisj. apply Z.lor_0_r. }
  unfold PageState.is_, PageState.is_not. rewrite Hc, Hs. repeat split.
Qed.

Lemma flags_outside_the_mask_are_untouched_witness :
  PageState.is_ (PageState.clear 27 (Z.lor PageState.Dirty PageState.Writable))
                PageState.UpToDate
  = PageState.is_ 27 PageState.UpToDate.
Proof.
  apply (flags_outside_the_mask_are_untouched
           27 (Z.lor PageState.Dirty PageState.Writable) PageState.UpToDate).
  reflexivity.
Defined.

(** X12. A mask made of several flags tests them together: [is] holds
    when any of them is set, [is_not] when none is. *)
Theorem combined_mask_tests_any_flag (ps p q : Z) :
  PageState.is_ ps (Z.lor p q) = PageState.is_ ps p || PageState.is_ ps q
  /\ PageState.is_not ps (Z.lor p q) = PageState.is_not ps p && PageState.is_not ps q.
Proof. split; [apply PageStateFacts.is_lor | apply PageStateFacts.is_not_lor]. Qed.

(** X13. Of a [set] and a [clear] with the same mask the last one
    decides, and repeating either changes nothing. *)
Theorem set_and_clear_last_one_wins (ps p : Z) :
  PageState.clear (PageState.set ps p) p = PageState.clear ps p
  /\ PageState.set (PageState.clear ps p) p = PageState.set ps p
  /\ PageState.set (PageState.set ps p) p = PageState.set ps p
  /\ PageState.clear (PageState.clear ps p) p = PageState.clear ps p.
Proof.
  unfold PageState.clear, PageState.set.
  repeat split; apply Z.bits_inj'; intros n Hn;
    repeat (rewrite ?Z.land_spec, ?Z.lor_spec, ?Z.lnot_spec by exact Hn);
    destruct (Z.testbit ps n), (Z.testbit p n); reflexivity.
Qed.

(** X14. On a state in the range of the enum, [clear] with any mask
    removes exactly the flags the state shares with the mask and stays in
    the range; [set] with a mask in the range adds the flags the state
    lacks and stays in the range. *)
Theorem set_and_clear_keep_the_state_in_range (ps p q : Z) :
  0 <= ps < 32 -> 0 <= p < 32 ->
  PageState.clear ps q = ps - Z.land ps q
  /\ 0 <= PageState.clear ps q <= ps
  /\ PageState.set ps p = ps + p - Z.land ps p
  /\ ps <= PageState.set ps p < 32.
Proof.
  intros Hps Hp.
  assert (PageState.clear ps q = ps - Z.land ps q) as Hc
    by (unfold PageState.clear; symmetry; apply Z.sub_land_same_l).
  assert (0 <= PageState.clear ps q) as Hc0
    by (unfold PageState.clear; apply Z.land_nonneg; left; lia).
  assert (0 <= Z.land ps q) as Hl0 by (apply Z.land_nonneg; left; lia).
  assert (PageState.set ps p = ps + p - Z.land ps p) as Hs.
  { unfold PageState.set.
    pose proof (Z.sub_lor_l_same_r ps p) as H1.
    pose proof (Z.sub_land_same_l ps p) as H2. lia. }
  assert (0 <= PageState.clear p ps) as Hpc
    by (unfold PageState.clear; apply Z.land_nonneg; left; lia).
  assert (PageState.clear p ps = p - Z.land ps p) as Hpc'.
  { unfold PageState.clear. rewrite (Z.land_comm ps p). symmetry.
    apply Z.sub_land_same_l. }
  assert (PageState.set ps p < 32) as Hlt.
  { unfold PageState.set.
    destruct (Z.eq_dec (Z.lor ps p) 0) as [-> | Hnz]; [lia |].
    assert (0 <= Z.lor ps p) by (apply Z.lor_nonneg; lia).
    change 32 with (2 ^ 5). apply Z.log2_lt_pow2; [lia |].
    rewrite Z.log2_lor by lia.
    assert (Z.log2 ps < 5).
    { destruct (Z.eq_dec ps 0) as [-> | ?]; [cbn; lia |].
      apply Z.log2_lt_pow2; [lia |]. change (2 ^ 5) with 32. lia. }
    assert (Z.log2 p < 5).
    { destruct (Z.eq_dec p 0) as [-> | ?]; [cbn; lia |].
      apply Z.log2_lt_pow2; [lia |]. change (2 ^ 5) with 32. lia. }
    lia. }
  repeat split; try assumption; lia.
Qed.

Lemma set_and_clear_keep_the_state_in_range_witness :
  0 <= PageState.clear 27 (Z.lor PageState.Dirty PageState.Writable) <= 27
  /\ 11 <= PageState.set 11 PageState.Dirty < 32.
Proof.
  destruct (set_and_clear_keep_the_state_in_range
              27 PageState.Dirty (Z.lor PageState.Dirty PageState.Writable))
    as (_ & Hclear & _); [lia | unfold PageState.Dirty; lia |].
  destruct (set_and_clear_keep_the_state_in_range 11 PageState.Dirty 0)
    as (_ & _ & _ & Hset); [lia | unfold PageState.Dirty; lia |].
  split; assumption.
Defined.

(** ** More on address translation *)

(** Order facts between closed terms, by evaluation. *)
Ltac closed_order := vm_compute; repeat split; first [discriminate | reflexivity].

Lemma pow2_shift_pos (m : EncryptedFileMapping) :
  wf_mapping m -> 0 < 2 ^ m_page_shift m.
Proof. intros [Hs _ _]. apply Z.pow_pos_nonneg; lia. Qed.

Lemma div_lt_iff a P c : 0 < P -> (a / P < c <-> a < c * P).
Proof. intros HP. pose proof (div_le_iff a P (c - 1) HP). split; intros; nia. Qed.

(** X1. With no extra offset the translator accepts exactly the
    addresses of the bytes of the mapping, from the base up to the end of
    the last page of the table. *)
Theorem translation_accepts_exactly_the_mapped_bytes
    (m : EncryptedFileMapping) (addr : Z) :
  wf_mapping m -> SizeT.in_range addr ->
  (exists v, get_local_index_of_address m addr 0 = Ret v)
  <-> m_addr m <= addr < m_addr m + page_count m * 2 ^ m_page_shift m.
Proof.
  intros Hwf Hr. pose proof (pow2_shift_pos m Hwf) as HP.
  assert (m_addr m <= addr ->
          raw_local_index m addr 0 = (addr - m_addr m) / 2 ^ m_page_shift m) as Hraw.
  { intros Hle. rewrite raw_local_index_exact; try assumption; try lia.
    - f_equal. lia.
    - destruct Hwf as [_ [? ?] _]. destruct Hr. lia. }
  split.
  - intros (v & Hv). apply get_local_index_of_address_Ret in Hv as (Hle & -> & Hlt).
    rewrite (Hraw Hle) in Hlt. apply div_lt_iff in Hlt; [lia | exact HP].
  - intros (Hle & Hlt). exists (raw_local_index m addr 0).
    apply get_local_index_of_address_Ret. repeat split; [exact Hle |].
    rewrite (Hraw Hle). apply div_lt_iff; [exact HP | lia].
Qed.

Lemma translation_accepts_exactly_the_mapped_bytes_witness :
  (exists v, get_local_index_of_address sample_mapping 77823 0 = Ret v)
  /\ ~ (exists v, get_local_index_of_address sample_mapping 77824 0 = Ret v).
Proof.
  split.
  - apply (translation_accepts_exactly_the_mapped_bytes sample_mapping 77823);
      [exact sample_mapping_wf | closed_order |].
    closed_order.
  - intros Hex.
    apply (translation_accepts_exactly_the_mapped_bytes sample_mapping 77824) in Hex;
      [| exact sample_mapping_wf | closed_order].
    vm_compute in Hex. destruct Hex as [_ Hex]. discriminate.
Defined.

(** X2. The extra offset is a displacement of the address: as long as
    [addr + offset] is still an address, translating [addr] with the
    offset is translating [addr + offset] without one. *)
Theorem extra_offset_displaces_the_address
    (m : EncryptedFileMapping) (addr offset : Z) :
  wf_mapping m -> SizeT.in_range addr -> m_addr m <= addr -> 0 <= offset ->
  addr + offset < SizeT.modulus ->
  get_local_index_of_address m addr offset
  = get_local_index_of_address m (addr + offset) 0.
Proof.
  intros Hwf Hr Hle Ho Hsum.
  assert (raw_local_index m addr offset = raw_local_index m (addr + offset) 0) as Hraw.
  { destruct Hwf as [Hs [Ha0 Ha1] Hf]. destruct Hr as [Hr0 Hr1].
    rewrite !raw_local_index_exact;
      try (split; [assumption | split; assumption | assumption]);
      unfold SizeT.in_range; try lia.
    f_equal. lia. }
  unfold get_local_index_of_address, REALM_ASSERT.
  fold (raw_local_index m addr offset). fold (raw_local_index m (addr + offset) 0).
  rewrite Hraw.
  destruct (Z.leb_spec (m_addr m) addr); [| lia].
  destruct (Z.leb_spec (m_addr m) (addr + offset)); [reflexivity | lia].
Qed.

Lemma extra_offset_displaces_the_address_witness :
  get_local_index_of_address sample_mapping 65536 8200
  = get_local_index_of_address sample_mapping (65536 + 8200) 0.
Proof.
  apply (extra_offset_displaces_the_address sample_mapping 65536 8200).
  - exact sample_mapping_wf.
  - closed_order.
  - closed_order.
  - lia.
  - closed_order.
Defined.

(** X3. Round trip: the address formed from a page index of the table and
    an offset inside the page translates back to that index and that
    offset. *)
Theorem translation_round_trip (m : EncryptedFileMapping) (i off : Z) :
  wf_mapping m -> 0 <= i < page_count m -> 0 <= off < 2 ^ m_page_shift m ->
  m_addr m + i * 2 ^ m_page_shift m + off < SizeT.modulus ->
  let addr := m_addr m + i * 2 ^ m_page_shift m + off in
  get_local_index_of_address m addr 0 = Ret i
  /\ get_offset_of_address m addr = Ret off.
Proof.
  intros Hwf Hi Hoff Hfit addr. pose proof (pow2_shift_pos m Hwf) as HP.
  assert (0 <= i * 2 ^ m_page_shift m) as Hprod by nia.
  assert (SizeT.in_range addr) as Hr.
  { destruct Hwf as [_ [? ?] _]. unfold SizeT.in_range. subst addr. lia. }
  assert (m_addr m <= addr) as Hle by (subst addr; lia).
  assert (addr - m_addr m = off + i * 2 ^ m_page_shift m) as Hdiff by (subst addr; lia).
  assert (0 <= m_addr m) as Hbase by (destruct Hwf as [_ [? _] _]; assumption).
  pose proof Hr as [_ Hr1].
  split.
  - apply get_local_index_of_address_Ret. split; [exact Hle |]. split; [| lia].
    rewrite raw_local_index_exact by (assumption || lia).
    rewrite Z.add_0_r, Hdiff, Z.div_add by lia. rewrite Z.div_small by lia. lia.
  - rewrite get_offset_of_address_Ret by assumption.
    rewrite Hdiff, Z.mod_add by lia. rewrite Z.mod_small by lia. reflexivity.
Qed.

Lemma translation_round_trip_witness :
  get_local_index_of_address sample_mapping (65536 + 2 * 2 ^ 12 + 102) 0 = Ret 2
  /\ get_offset_of_address sample_mapping (65536 + 2 * 2 ^ 12 + 102) = Ret 102.
Proof.
  apply (translation_round_trip sample_mapping 2 102).
  - exact sample_mapping_wf.
  - closed_order.
  - closed_order.
  - closed_order.
Defined.

(** X4. Translation keeps the order of addresses, and the accepted
    addresses have no gap: below an accepted address every address from
    the base on is accepted, with an index that is not larger. *)
Theorem translation_is_monotone (m : EncryptedFileMapping) (a b ib : Z) :
  wf_mapping m -> SizeT.in_range a -> SizeT.in_range b ->
  m_addr m <= a -> a <= b ->
  get_local_index_of_address m b 0 = Ret ib ->
  exists ia, get_local_index_of_address m a 0 = Ret ia /\ ia <= ib.
Proof.
  intros Hwf Ha Hb Hle Hab Hib. pose proof (pow2_shift_pos m Hwf) as HP.
  apply get_local_index_of_address_Ret in Hib as (Hleb & -> & Hlt).
  destruct Hwf as [Hs [Hm0 Hm1] Hf]. destruct Ha as [Ha0 Ha1]. destruct Hb as [Hb0 Hb1].
  assert (wf_mapping m) as Hwf by (split; [assumption | split; assumption | assumption]).
  rewrite raw_local_index_exact in * by (unfold SizeT.in_range; lia || assumption).
  exists (raw_local_index m a 0).
  rewrite get_local_index_of_address_Ret.
  rewrite raw_local_index_exact by (unfold SizeT.in_range; lia || assumption).
  assert ((a - m_addr m + 0) / 2 ^ m_page_shift m
          <= (b - m_addr m + 0) / 2 ^ m_page_shift m)
    by (apply Z.div_le_mono; lia).
  repeat split; lia.
Qed.

Lemma translation_is_monotone_witness :
  exists ia, get_local_index_of_address sample_mapping 69000 0 = Ret ia /\ ia <= 2.
Proof.
  apply (translation_is_monotone sample_mapping 69000 73830 2).
  - exact sample_mapping_wf.
  - closed_order.
  - closed_order.
  - closed_order.
  - lia.
  - reflexivity.
Defined.

(** X5. Page index and offset together determine the address: two
    addresses with the same translated index and the same offset are
    equal. *)
Theorem translation_is_injective (m : EncryptedFileMapping) (a b idx off : Z) :
  wf_mapping m -> SizeT.in_range a -> SizeT.in_range b ->
  get_local_index_of_address m a 0 = Ret idx ->
  get_local_index_of_address m b 0 = Ret idx ->
  get_offset_of_address m a = Ret off ->
  get_offset_of_address m b = Ret off ->
  a = b.
Proof.
  intros Hwf Ha Hb Hia Hib Hoa Hob. pose proof (pow2_shift_pos m Hwf) as HP.
  apply get_local_index_of_address_Ret in Hia as (Hlea & Hia & _).
  apply get_local_index_of_address_Ret in Hib as (Hleb & Hib & _).
  rewrite get_offset_of_address_Ret in Hoa, Hob by assumption.
  injection Hoa as Hoa. injection Hob as Hob.
  destruct Hwf as [Hs [Hm0 Hm1] Hf]. destruct Ha as [Ha0 Ha1]. destruct Hb as [Hb0 Hb1].
  assert (wf_mapping m) as Hwf by (split; [assumption | split; assumption | assumption]).
  rewrite raw_local_index_exact in Hia, Hib by (unfold SizeT.in_range; lia || assumption).
  rewrite Z.add_0_r in Hia, Hib.
  pose proof (Z.div_mod (a - m_addr m) (2 ^ m_page_shift m) ltac:(lia)) as Hda.
  pose proof (Z.div_mod (b - m_addr m) (2 ^ m_page_shift m) ltac:(lia)) as Hdb.
  rewrite <- Hia, Hoa in Hda. rewrite <- Hib, Hob in Hdb. lia.
Qed.

Lemma translation_is_injective_witness : 65536 + 4096 + 7 = 69639.
Proof.
  apply (translation_is_injective sample_mapping (65536 + 4096 + 7) 69639 1 7).
  - exact sample_mapping_wf.
  - closed_order.
  - closed_order.
  - reflexivity.
  - reflexivity.
  - reflexivity.
  - reflexivity.
Defined.

(** ** Start index, end index and [contains_page] *)

(** X6. The length of the table is the end index minus the start index
    in [size_t] arithmetic, also when the end index has wrapped. *)
Theorem table_length_from_start_and_end (m : EncryptedFileMapping) :
  SizeT.in_range (m_first_page m) -> SizeT.in_range (page_count m) ->
  SizeT.sub (get_end_index m) (get_start_index m) = page_count m.
Proof.
  intros Hf Hn. unfold get_end_index, get_start_index, SizeT.sub, SizeT.add, SizeT.wrap.
  rewrite Zminus_mod_idemp_l.
  replace (m_first_page m + page_count m - m_first_page m) with (page_count m) by lia.
  now apply Z.mod_small.
Qed.

Lemma table_length_from_start_and_end_witness :
  SizeT.sub (get_end_index sample_mapping) (get_start_index sample_mapping) = 3.
Proof.
  apply (table_length_from_start_and_end sample_mapping); closed_order.
Defined.

(** X7. The end index is never a page of the window, and the start index
    is one exactly when the table is not empty. *)
Theorem start_and_end_index_membership (m : EncryptedFileMapping) :
  SizeT.in_range (m_first_page m) -> SizeT.in_range (page_count m) ->
  contains_page m (get_end_index m) = false
  /\ (contains_page m (get_start_index m) = true <-> m_page_state m <> []).
Proof.
  intros Hf Hn. split.
  - pose proof (table_length_from_start_and_end m Hf Hn) as Hlen.
    unfold get_start_index in Hlen.
    unfold contains_page, contains_page_traced.
    destruct (Z.leb_spec (m_first_page m) (get_end_index m)); cbn [fst];
      [| reflexivity].
    rewrite Hlen. apply Z.ltb_irrefl.
  - unfold contains_page, contains_page_traced, get_start_index.
    rewrite Z.leb_refl. cbn [fst].
    unfold SizeT.sub. rewrite Z.sub_diag. change (SizeT.wrap 0) with 0.
    rewrite Z.ltb_lt. unfold page_count.
    destruct (m_page_state m); cbn [length]; split; intros; try lia; congruence.
Qed.

Lemma start_and_end_index_membership_witness :
  contains_page sample_mapping (get_end_index sample_mapping) = false
  /\ contains_page sample_mapping (get_start_index sample_mapping) = true.
Proof.
  destruct (start_and_end_index_membership sample_mapping) as (Hend & Hstart);
    [closed_order | closed_order |].
  split; [exact Hend | apply Hstart; discriminate].
Defined.

(** X8. While the end index has not wrapped, [contains_page] is the test
    "from the start index, below the end index".  When the window reaches
    past the largest [size_t], the end index has wrapped and every page
    from the start index on is contained. *)
Theorem contains_page_between_start_and_end (m : EncryptedFileMapping) (p : Z) :
  SizeT.in_range (m_first_page m) -> SizeT.in_range p ->
  (m_first_page m + page_count m < SizeT.modulus ->
   contains_page m p = (get_start_index m <=? p) && (p <? get_end_index m))
  /\ (SizeT.modulus <= m_first_page m + page_count m ->
      contains_page m p = (get_start_index m <=? p)).
Proof.
  intros Hf Hp. unfold contains_page, contains_page_traced, get_start_index, get_end_index.
  assert (0 <= page_count m) as Hn by (unfold page_count; lia).
  split; intros Hsum;
    destruct (Z.leb_spec (m_first_page m) p) as [Hle | Hlt]; cbn [fst andb];
      try reflexivity; rewrite SizeTFacts.sub_exact by assumption.
  - unfold SizeT.add. rewrite SizeTFacts.wrap_small by (destruct Hf; split; lia).
    destruct (Z.ltb_spec (p - m_first_page m) (page_count m));
      destruct (Z.ltb_spec p (m_first_page m + page_count m)); try reflexivity; lia.
  - apply Z.ltb_lt. destruct Hp. lia.
Qed.

Lemma contains_page_between_start_and_end_witness :
  contains_page sample_mapping 7
  = (get_start_index sample_mapping <=? 7) && (7 <? get_end_index sample_mapping).
Proof.
  destruct (contains_page_between_start_and_end sample_mapping 7) as (Hno_wrap & _);
    [closed_order | closed_order |].
  apply Hno_wrap. closed_order.
Defined.

(** X9. An index returned by the translator names a page of the window:
    added to the start index it satisfies [contains_page], provided the
    global indices of the window fit [size_t]. *)
Theorem translated_index_is_a_contained_page
    (m : EncryptedFileMapping) (addr offset v : Z) :
  SizeT.in_range (m_first_page m) ->
  m_first_page m + page_count m <= SizeT.modulus ->
  get_local_index_of_address m addr offset = Ret v ->
  contains_page m (SizeT.add (get_start_index m) v) = true.
Proof.
  intros Hf Hfit Hv.
  apply get_local_index_of_address_Ret in Hv as (_ & -> & Hlt).
  pose proof (raw_local_index_nonneg m addr offset) as Hnn.
  set (v := raw_local_index m addr offset) in *.
  unfold get_start_index, SizeT.add.
  destruct Hf as [Hf0 Hf1].
  rewrite SizeTFacts.wrap_small by (unfold SizeT.in_range; lia).
  unfold contains_page, contains_page_traced.
  destruct (Z.leb_spec (m_first_page m) (m_first_page m + v)); [| lia]. cbn [fst].
  rewrite SizeTFacts.sub_exact by (unfold SizeT.in_range; lia).
  apply Z.ltb_lt. lia.
Qed.

Lemma translated_index_is_a_contained_page_witness :
  contains_page sample_mapping (SizeT.add (get_start_index sample_mapping) 2) = true.
Proof.
  apply (translated_index_is_a_contained_page sample_mapping 73830 100 2).
  - closed_order.
  - closed_order.
  - reflexivity.
Defined.
